(** * The MQTT adapter of [refactor/adapters/mqtt/mqtt.go]

    A shallow embedding of [Send], [Next], [NextRegistration] and of the
    channels they work on, followed by the properties of the adapter's
    specification.

    [Send] is concurrent: the caller's goroutine walks the recipients and
    starts two goroutines for each of them.  It is embedded as a labelled
    transition system.  A state holds a program point for the caller and for
    each goroutine, the two buffered channels [cherr] and [chresp], the
    [sync.WaitGroup] counter and the private [chdown] channel of every
    recipient.  A label names the goroutine that moves and carries the answer
    of the transport where there is one.  [step] is a function, so every run
    can be evaluated. *)

From stdpp Require Import base list strings.
From Stdlib Require Import ZArith Lia.

(** ** Data *)

(** [[]byte] *)
Definition bytes := list Byte.byte.

(** Modelled from the spec: the error kinds of [core/errors], of which the
    adapter uses three, and [errors.New kind cause] of [utils/errors]. *)
Inductive ErrKind := ErrInvalidStructure | ErrFailedOperation | ErrWrongBehavior.

Record Error := errors_New { kind : ErrKind; cause : string }.

(** Modelled from the spec: [MqttRecipient] is declared in another file of the
    package; [Send] uses its two topics. *)
Record MqttRecipient := { TopicUp : string; TopicDown : string }.

(** A [core.Recipient] is an interface value: either it holds an
    [MqttRecipient] or something else. *)
Inductive Recipient :=
| Mqtt (m : MqttRecipient)
| Foreign (descr : string).

(** [recipient, ok := r.(MqttRecipient)] *)
Definition as_MqttRecipient (r : Recipient) : option MqttRecipient :=
  match r with
  | Mqtt m => Some m
  | Foreign _ => None
  end.

(** A [core.Packet] is used through [MarshalBinary() ([]byte, error)] only. *)
Record Packet := { MarshalBinary : bytes + string }.

(** The two results of [Send]: [([]byte, error)], [None] standing for [nil]. *)
Definition Outcome := (option bytes * option Error)%type.

(** ** The program points of [Send] *)

(** The caller's goroutine. *)
Inductive MainPc :=
| MMarshal                        (* line 93, before p.MarshalBinary() *)
| MLoop (i : nat)                 (* line 108, recipient i is next *)
| MSendErr (i : nat) (e : Error)  (* lines 114 and 126, at cherr <- err *)
| MWait                           (* line 171, at wg.Wait() *)
| MAggregate                      (* line 173, the join is over *)
| MReturned (r : Outcome).

(** The goroutine of lines 132-144. *)
Inductive PubPc :=
| PubIdle                         (* not started *)
| PubPublish                      (* line 138 *)
| PubSendErr (e : Error)          (* line 141, at cherr <- ... *)
| PubExit                         (* the deferred wg.Done() *)
| PubDone.

(** The goroutine of lines 147-166. *)
Inductive ColPc :=
| ColIdle                         (* not started *)
| ColSelect                       (* line 159 *)
| ColSendResp (d : bytes)         (* line 162, at chresp <- data *)
| ColUnsubscribe                  (* lines 152-156, the deferred closure *)
| ColExit                         (* the deferred wg.Done() *)
| ColDone.

(** What belongs to one recipient: its two goroutines and its [chdown].
    [chdown] has no buffer; [chdown] lists, oldest first, the payloads of
    the subscription callbacks that are blocked in [chdown <- msg.Payload()]. *)
Record Slot := {
  pub : PubPc;
  col : ColPc;
  chdown : list bytes;
  chdown_closed : bool
}.

Definition idle_slot : Slot :=
  {| pub := PubIdle; col := ColIdle; chdown := []; chdown_closed := false |}.

Record State := {
  main : MainPc;
  data : bytes;            (* the marshalled packet *)
  slots : list Slot;       (* one per recipient *)
  cherr : list Error;      (* make(chan error, nb), oldest first *)
  chresp : list bytes;     (* make(chan []byte, nb), oldest first *)
  wg : Z                   (* the counter of the sync.WaitGroup *)
}.

(** What [token.Error()] gives once [token.Wait()] is over: [None] is [nil]. *)
Definition Token := option string.

(** The moves.  A label names the goroutine that moves and, for a call of the
    transport, carries the token the transport answers with. *)
Inductive Label :=
| LMarshal                         (* main: p.MarshalBinary(), then lines 102-106 *)
| LSkip (i : nat)                  (* main: the type assertion fails *)
| LSubscribe (i : nat) (t : Token) (* main: a.Subscribe + token.Wait(); go ...; go ... *)
| LRecord (i : nat)                (* main: cherr <- err; (close(chdown);) continue *)
| LJoin                            (* main: wg.Wait() returns *)
| LReturn                          (* main: lines 173-192 *)
| LPublish (i : nat) (t : Token)   (* publisher i: a.Publish + token.Wait() *)
| LPubRecord (i : nat)             (* publisher i: cherr <- ... *)
| LPubDone (i : nat)               (* publisher i: wg.Done() *)
| LDeliver (i : nat) (d : bytes)   (* transport: the callback of i starts chdown <- d *)
| LRecv (i : nat)                  (* collector i: case data, ok := <-chdown, a value *)
| LRecvClosed (i : nat)            (* collector i: the same case on a closed chdown *)
| LTimeout (i : nat)               (* collector i: case <-time.After(2 * time.Second) *)
| LForward (i : nat)               (* collector i: chresp <- data *)
| LUnsubscribe (i : nat) (t : Token) (* collector i: a.Unsubscribe + token.Wait() *)
| LColDone (i : nat).              (* collector i: wg.Done() *)

(** ** Lines 176-192: the reduction of the two buffers to one outcome *)

Definition aggregate (cherr : list Error) (chresp : list bytes) : Outcome :=
  let errored := length cherr in
  if 1 <? length chresp then
    (None, Some (errors_New ErrWrongBehavior "Received too many positive answers"))
  else if (length chresp =? 0) && negb (errored =? 0) then
    (None, Some (errors_New ErrFailedOperation
       "No positive response from recipients but got unexpected answers"))
  else if (length chresp =? 0) && (errored =? 0) then
    (None, Some (errors_New ErrWrongBehavior "No recipient gave a positive answer"))
  else (head chresp, None).

(** The calls of the transport client (lines 120, 138 and 153). *)
Inductive Call :=
| Subscribe (topic : string)
| Publish (topic : string) (payload : bytes)
| Unsubscribe (topic : string).

(** ** One step of [Send] *)

Section Send.

Variable p : Packet.
Variable recipients : list Recipient.

Definition nb : nat := length recipients.

(** Where the caller goes once recipient [i] is dealt with. *)
Definition after (i : nat) : MainPc :=
  if S i <? nb then MLoop (S i) else MWait.

Definition first_pc : MainPc :=
  if 0 <? nb then MLoop 0 else MWait.

Definition set_main (pc : MainPc) (s : State) : State :=
  {| main := pc; data := data s; slots := slots s;
     cherr := cherr s; chresp := chresp s; wg := wg s |}.

Definition set_slot (i : nat) (sl : Slot) (s : State) : State :=
  {| main := main s; data := data s; slots := <[i := sl]> (slots s);
     cherr := cherr s; chresp := chresp s; wg := wg s |}.

Definition set_pub (pc : PubPc) (sl : Slot) : Slot :=
  {| pub := pc; col := col sl; chdown := chdown sl;
     chdown_closed := chdown_closed sl |}.

Definition set_col (pc : ColPc) (sl : Slot) : Slot :=
  {| pub := pub sl; col := pc; chdown := chdown sl;
     chdown_closed := chdown_closed sl |}.

Definition set_chdown (q : list bytes) (sl : Slot) : Slot :=
  {| pub := pub sl; col := col sl; chdown := q;
     chdown_closed := chdown_closed sl |}.

Definition close_chdown (sl : Slot) : Slot :=
  {| pub := pub sl; col := col sl; chdown := chdown sl;
     chdown_closed := true |}.

(** [cherr <- e]: possible while the buffer of [nb] places is not full. *)
Definition push_err (e : Error) (s : State) : option State :=
  if length (cherr s) <? nb then
    Some {| main := main s; data := data s; slots := slots s;
            cherr := cherr s ++ [e]; chresp := chresp s; wg := wg s |}
  else None.

(** [chresp <- d], likewise. *)
Definition push_resp (d : bytes) (s : State) : option State :=
  if length (chresp s) <? nb then
    Some {| main := main s; data := data s; slots := slots s;
            cherr := cherr s; chresp := chresp s ++ [d]; wg := wg s |}
  else None.

(** [wg.Done()]; a counter below zero is a panic, after which nothing runs. *)
Definition wg_done (s : State) : option State :=
  if (0 <? wg s)%Z then
    Some {| main := main s; data := data s; slots := slots s;
            cherr := cherr s; chresp := chresp s; wg := (wg s - 1)%Z |}
  else None.

Definition init : State :=
  {| main := MMarshal; data := []; slots := replicate nb idle_slot;
     cherr := []; chresp := []; wg := 0 |}.

Definition step (s : State) (l : Label) : option State :=
  match l with
  | LMarshal =>
      match main s with
      | MMarshal =>
          match MarshalBinary p with
          | inr err =>
              Some (set_main
                      (MReturned (None, Some (errors_New ErrInvalidStructure err))) s)
          | inl d =>
              Some {| main := first_pc; data := d; slots := slots s;
                      cherr := []; chresp := []; wg := 2 * Z.of_nat nb |}
          end
      | _ => None
      end
  | LSkip i =>
      match main s, as_MqttRecipient <$> recipients !! i with
      | MLoop j, Some None =>
          if i =? j then
            Some (set_main
                    (MSendErr i (errors_New ErrInvalidStructure
                                   "Unable to interpret recipient as mqttRecipient")) s)
          else None
      | _, _ => None
      end
  | LSubscribe i t =>
      match main s, as_MqttRecipient <$> recipients !! i, slots s !! i with
      | MLoop j, Some (Some _), Some sl =>
          if i =? j then
            match t with
            | Some _ =>
                Some (set_main
                        (MSendErr i (errors_New ErrFailedOperation
                                       "Unable to subscribe to down topic")) s)
            | None =>
                Some (set_main (after i)
                        (set_slot i (set_col ColSelect (set_pub PubPublish sl)) s))
            end
          else None
      | _, _, _ => None
      end
  | LRecord i =>
      match main s, as_MqttRecipient <$> recipients !! i, slots s !! i with
      | MSendErr j e, Some r, Some sl =>
          if i =? j then
            s' ← push_err e s;
            Some (set_main (after i)
                    (match r with
                     | Some _ => set_slot i (close_chdown sl) s'
                     | None => s'
                     end))
          else None
      | _, _, _ => None
      end
  | LJoin =>
      match main s with
      | MWait => if (wg s =? 0)%Z then Some (set_main MAggregate s) else None
      | _ => None
      end
  | LReturn =>
      match main s with
      | MAggregate =>
          let r := aggregate (cherr s) (chresp s) in
          Some {| main := MReturned r; data := data s; slots := slots s;
                  cherr := cherr s;
                  chresp := match r with
                            | (_, None) => tail (chresp s)
                            | _ => chresp s
                            end;
                  wg := wg s |}
      | _ => None
      end
  | LPublish i t =>
      match slots s !! i with
      | Some sl =>
          match pub sl with
          | PubPublish =>
              Some (set_slot i
                      (set_pub (match t with
                                | Some err =>
                                    PubSendErr (errors_New ErrFailedOperation err)
                                | None => PubExit
                                end) sl) s)
          | _ => None
          end
      | None => None
      end
  | LPubRecord i =>
      match slots s !! i with
      | Some sl =>
          match pub sl with
          | PubSendErr e =>
              s' ← push_err e s; Some (set_slot i (set_pub PubExit sl) s')
          | _ => None
          end
      | None => None
      end
  | LPubDone i =>
      match slots s !! i with
      | Some sl =>
          match pub sl with
          | PubExit => s' ← wg_done s; Some (set_slot i (set_pub PubDone sl) s')
          | _ => None
          end
      | None => None
      end
  | LDeliver i d =>
      match slots s !! i with
      | Some sl =>
          match col sl with
          | ColIdle => None
          | _ => Some (set_slot i (set_chdown (chdown sl ++ [d]) sl) s)
          end
      | None => None
      end
  | LRecv i =>
      match slots s !! i with
      | Some sl =>
          match col sl, chdown sl with
          | ColSelect, d :: q =>
              Some (set_slot i (set_col (ColSendResp d) (set_chdown q sl)) s)
          | _, _ => None
          end
      | None => None
      end
  | LRecvClosed i =>
      match slots s !! i with
      | Some sl =>
          match col sl, chdown sl with
          | ColSelect, [] =>
              if chdown_closed sl then Some (set_slot i (set_col ColUnsubscribe sl) s)
              else None
          | _, _ => None
          end
      | None => None
      end
  | LTimeout i =>
      match slots s !! i with
      | Some sl =>
          match col sl with
          | ColSelect => Some (set_slot i (set_col ColUnsubscribe sl) s)
          | _ => None
          end
      | None => None
      end
  | LForward i =>
      match slots s !! i with
      | Some sl =>
          match col sl with
          | ColSendResp d =>
              s' ← push_resp d s; Some (set_slot i (set_col ColUnsubscribe sl) s')
          | _ => None
          end
      | None => None
      end
  | LUnsubscribe i t =>
      match slots s !! i with
      | Some sl =>
          match col sl with
          | ColUnsubscribe => Some (set_slot i (set_col ColExit sl) s)
          | _ => None
          end
      | None => None
      end
  | LColDone i =>
      match slots s !! i with
      | Some sl =>
          match col sl with
          | ColExit => s' ← wg_done s; Some (set_slot i (set_col ColDone sl) s')
          | _ => None
          end
      | None => None
      end
  end.

(** The call of the transport a step makes, if it makes one: the
    subscription is to the recipient's [TopicDown()], the publication of
    [data] is to its [TopicUp()]. *)
Definition call (s : State) (l : Label) : option Call :=
  match l with
  | LSubscribe i _ =>
      m ← recipients !! i ≫= as_MqttRecipient; Some (Subscribe (TopicDown m))
  | LPublish i _ =>
      m ← recipients !! i ≫= as_MqttRecipient; Some (Publish (TopicUp m) (data s))
  | LUnsubscribe i _ =>
      m ← recipients !! i ≫= as_MqttRecipient; Some (Unsubscribe (TopicDown m))
  | _ => None
  end.

(** A run: the labels are taken from left to right. *)
Fixpoint run (s : State) (tr : list Label) : option State :=
  match tr with
  | [] => Some s
  | l :: tr' => s' ← step s l; run s' tr'
  end.

(** [tr] is a run of [Send p recipients...] that ends in [s]. *)
Definition Reach (tr : list Label) (s : State) : Prop :=
  run init tr = Some s.

End Send.

(** ** Reading a run *)

(** A class of labels: [c l = Some i] when [l] is of the class and concerns
    recipient [i]. *)
Definition Class := Label → option nat.

Definition subscribes : Class := λ l,
  match l with LSubscribe i _ => Some i | _ => None end.

Definition subscribes_ok : Class := λ l,
  match l with LSubscribe i None => Some i | _ => None end.

Definition subscribes_ko : Class := λ l,
  match l with LSubscribe i (Some _) => Some i | _ => None end.

Definition skips : Class := λ l,
  match l with LSkip i => Some i | _ => None end.

Definition publishes : Class := λ l,
  match l with LPublish i _ => Some i | _ => None end.

Definition unsubscribes : Class := λ l,
  match l with LUnsubscribe i _ => Some i | _ => None end.

Definition forwards : Class := λ l,
  match l with LForward i => Some i | _ => None end.

(** [cherr <- err], by the caller or by the publisher. *)
Definition records : Class := λ l,
  match l with LRecord i | LPubRecord i => Some i | _ => None end.

(** The recipient a label concerns, when it concerns one. *)
Definition index (l : Label) : option nat :=
  match l with
  | LMarshal | LJoin | LReturn => None
  | LSkip i | LSubscribe i _ | LRecord i | LPublish i _ | LPubRecord i
  | LPubDone i | LDeliver i _ | LRecv i | LRecvClosed i | LTimeout i
  | LForward i | LUnsubscribe i _ | LColDone i => Some i
  end.

(** How many labels of [tr] are of class [c] and concern recipient [i]. *)
Fixpoint count (c : Class) (i : nat) (tr : list Label) : nat :=
  match tr with
  | [] => 0
  | l :: tr' => (if bool_decide (c l = Some i) then 1 else 0) + count c i tr'
  end.

(** How many labels of [tr] are of class [c]. *)
Fixpoint total (c : Class) (tr : list Label) : nat :=
  match tr with
  | [] => 0
  | l :: tr' => (match c l with Some _ => 1 | None => 0 end) + total c tr'
  end.

(** How often [p.MarshalBinary()] is called. *)
Fixpoint marshals (tr : list Label) : nat :=
  match tr with
  | [] => 0
  | LMarshal :: tr' => S (marshals tr')
  | _ :: tr' => marshals tr'
  end.

(** The payloads the transport has handed to the callback of recipient [i],
    oldest first. *)
Fixpoint delivered (i : nat) (tr : list Label) : list bytes :=
  match tr with
  | [] => []
  | LDeliver j d :: tr' => if bool_decide (j = i) then d :: delivered i tr' else delivered i tr'
  | _ :: tr' => delivered i tr'
  end.

(** The goroutines of a recipient that have not called [wg.Done()]. *)
Definition tasks_left (sl : Slot) : nat :=
  (match pub sl with PubDone => 0 | _ => 1 end) +
  (match col sl with ColDone => 0 | _ => 1 end).

(** Both goroutines of every recipient have called [wg.Done()]. *)
Definition all_done (l : list Slot) : bool :=
  forallb (λ sl, match pub sl, col sl with
                 | PubDone, ColDone => true
                 | _, _ => false
                 end) l.

(** The recipients the loop is through with. *)
Definition frontier (n : nat) (pc : MainPc) : nat :=
  match pc with
  | MMarshal => 0
  | MLoop i => i
  | MSendErr i _ => i
  | _ => n
  end.

(** What the program points tell about the past of a recipient. *)

(** The subscription went through: the two goroutines exist. *)
Definition spawned (pc : ColPc) : nat :=
  match pc with ColIdle => 0 | _ => 1 end.

(** [a.Publish] has been called. *)
Definition published (pc : PubPc) : nat :=
  match pc with PubIdle | PubPublish => 0 | _ => 1 end.

(** The deferred [a.Unsubscribe] has been called. *)
Definition unsubscribed (pc : ColPc) : nat :=
  match pc with ColExit | ColDone => 1 | _ => 0 end.

(** The [select] of line 159 and the send of line 162 are behind. *)
Definition past_select (pc : ColPc) : nat :=
  match pc with ColIdle | ColSelect | ColSendResp _ => 0 | _ => 1 end.

(** How many errors recipient [i] may have put into [cherr]. *)
Definition may_have_recorded (n : nat) (pc : MainPc) (i : nat) (sl : Slot) : nat :=
  match pub sl with
  | PubIdle => if bool_decide (i < frontier n pc) then 1 else 0
  | PubPublish | PubSendErr _ => 0
  | PubExit | PubDone => 1
  end.

(** The loop has taken up recipient [i]. *)
Definition visited (n : nat) (pc : MainPc) (i : nat) : nat :=
  match pc with
  | MSendErr j _ => if bool_decide (i ≤ j) then 1 else 0
  | _ => if bool_decide (i < frontier n pc) then 1 else 0
  end.

(** ** What holds along a run *)

Section Invariants.

Variable recipients : list Recipient.

Local Abbreviation nb := (nb recipients).

(** What holds of every state of a run. *)
Definition idle (sl : Slot) : Prop := pub sl = PubIdle ∧ col sl = ColIdle.

Record wf (s : State) : Prop := {
  wf_length : length (slots s) = nb;
  wf_loop : ∀ i, main s = MLoop i → i < nb;
  wf_senderr : ∀ i e, main s = MSendErr i e → i < nb;
  wf_frontier : ∀ i sl,
    slots s !! i = Some sl → frontier nb (main s) ≤ i → idle sl;
  wf_foreign : ∀ i sl,
    slots s !! i = Some sl → as_MqttRecipient <$> recipients !! i = Some None → idle sl;
  wf_pair : ∀ i sl, slots s !! i = Some sl → pub sl = PubIdle ↔ col sl = ColIdle
}.

(** After a marshalling that succeeded, the counter is the number of
    goroutines that have yet to call [wg.Done()], those that were never
    started among them; past [wg.Wait()] it is zero. *)
Definition wg_inv (s : State) : Prop :=
  match main s with
  | MMarshal => True
  | MAggregate | MReturned _ =>
      wg s = 0%Z ∧ sum_list_with tasks_left (slots s) = 0
  | _ => wg s = Z.of_nat (sum_list_with tasks_left (slots s))
  end.

(** What a run and the state it ends in tell about each other, recipient by
    recipient. *)
Record slot_inv (tr : list Label) (pc : MainPc) (i : nat) (sl : Slot) : Prop := {
  si_subscribed : count subscribes_ok i tr = spawned (col sl);
  si_published : count publishes i tr = published (pub sl);
  si_unsubscribed : count unsubscribes i tr = unsubscribed (col sl);
  si_forwarded : count forwards i tr ≤ past_select (col sl);
  si_recorded : count records i tr ≤ may_have_recorded nb pc i sl;
  si_visited : count subscribes i tr + count skips i tr = visited nb pc i;
  si_delivered :
    match col sl with
    | ColIdle => delivered i tr = [] ∧ chdown sl = []
    | ColSelect => delivered i tr = chdown sl
    | ColSendResp b => delivered i tr = b :: chdown sl
    | _ => True
    end
}.

Definition slots_inv (tr : list Label) (s : State) : Prop :=
  ∀ i sl, slots s !! i = Some sl → slot_inv tr (main s) i sl.

(** The same for the caller: [p.MarshalBinary()] is called once, and what the
    two buffers hold is what was sent into them. *)
Record main_inv (tr : list Label) (s : State) : Prop := {
  mi_fresh : main s = MMarshal → tr = [];
  mi_marshals : marshals tr = match main s with MMarshal => 0 | _ => 1 end;
  mi_cherr : length (cherr s) = total records tr;
  mi_chresp :
    match main s with
    | MReturned _ => length (chresp s) ≤ total forwards tr
    | _ => length (chresp s) = total forwards tr
    end
}.

(** The error the caller holds at [cherr <- err] is the one of line 112 when
    recipient [i] is no [MqttRecipient], and the one of line 124 when it is. *)
Definition senderr_ok (i : nat) (e : Error) : Prop :=
  (as_MqttRecipient <$> recipients !! i = Some None ∧
   e = errors_New ErrInvalidStructure
         "Unable to interpret recipient as mqttRecipient") ∨
  ((∃ m, as_MqttRecipient <$> recipients !! i = Some (Some m)) ∧
   e = errors_New ErrFailedOperation "Unable to subscribe to down topic").

End Invariants.

(** ** How much [Send] has left to do *)

(** A step of [Send] itself, as opposed to a delivery by the transport. *)
Definition own (l : Label) : bool :=
  match l with LDeliver _ _ => false | _ => true end.

Fixpoint own_steps (tr : list Label) : nat :=
  match tr with
  | [] => 0
  | l :: tr' => (if own l then 1 else 0) + own_steps tr'
  end.

(** The steps each goroutine can still take, at most. *)
Definition main_left (n : nat) (pc : MainPc) : nat :=
  match pc with
  | MMarshal => 2 * n + 3
  | MLoop i => 2 * (n - i) + 2
  | MSendErr i _ => 2 * (n - i) + 1
  | MWait => 2
  | MAggregate => 1
  | MReturned _ => 0
  end.

Definition pub_left (pc : PubPc) : nat :=
  match pc with
  | PubIdle | PubPublish => 3
  | PubSendErr _ => 2
  | PubExit => 1
  | PubDone => 0
  end.

Definition col_left (pc : ColPc) : nat :=
  match pc with
  | ColIdle | ColSelect => 4
  | ColSendResp _ => 3
  | ColUnsubscribe => 2
  | ColExit => 1
  | ColDone => 0
  end.

Definition slot_left (sl : Slot) : nat := pub_left (pub sl) + col_left (col sl).

Definition steps_left (n : nat) (s : State) : nat :=
  main_left n (main s) + sum_list_with slot_left (slots s).

(** The caller takes up a recipient: the type assertion of line 110, followed
    by [a.Subscribe] when it holds. *)
Definition visits : Class := λ l,
  match l with LSkip i | LSubscribe i _ => Some i | _ => None end.

(** The recipients the loop has taken up. *)
Definition taken_up (n : nat) (pc : MainPc) : nat :=
  match pc with
  | MMarshal => 0
  | MLoop i => i
  | MSendErr i _ => S i
  | _ => n
  end.

(** The collector of a recipient has received or has given up: it is past
    its [select]. *)
Definition late (sl : Slot) : Prop := col sl ≠ ColIdle ∧ col sl ≠ ColSelect.

(** * The inbound funnel: [NewAdapter], [Next], [NextRegistration] *)

Module Funnel.

(** A Go channel of capacity [cap]: the values in its buffer, the values of
    the senders that are parked on it, both oldest first, and the number of
    receivers parked on it. *)
Record chan (A : Type) := {
  cap : nat;
  buf : list A;
  sendq : list A;
  recvq : nat
}.
Arguments cap {A}.
Arguments buf {A}.
Arguments sendq {A}.
Arguments recvq {A}.

(** [make(chan A, n)]; [make(chan A)] is [make 0]. *)
Definition make {A} (n : nat) : chan A :=
  {| cap := n; buf := []; sendq := []; recvq := 0 |}.

(** What becomes of [c <- v]. *)
Inductive Sent (A : Type) :=
| Handed (c : chan A)    (* a parked receiver takes [v]; the sender goes on *)
| Buffered (c : chan A)  (* [v] sits in the buffer; the sender goes on *)
| SendParked (c : chan A). (* the sender blocks until a receiver takes [v] *)
Arguments Handed {A}.
Arguments Buffered {A}.
Arguments SendParked {A}.

Definition send {A} (c : chan A) (v : A) : Sent A :=
  if 0 <? recvq c then
    Handed {| cap := cap c; buf := buf c; sendq := sendq c; recvq := recvq c - 1 |}
  else if length (buf c) <? cap c then
    Buffered {| cap := cap c; buf := buf c ++ [v]; sendq := sendq c; recvq := recvq c |}
  else
    SendParked {| cap := cap c; buf := buf c; sendq := sendq c ++ [v]; recvq := recvq c |}.

(** What becomes of [<-c]. *)
Inductive Received (A : Type) :=
| Got (v : A) (c : chan A)   (* the oldest value; its sender, if parked, goes on *)
| RecvParked (c : chan A).   (* nothing to take: the receiver blocks *)
Arguments Got {A}.
Arguments RecvParked {A}.

Definition recv {A} (c : chan A) : Received A :=
  match buf c, sendq c with
  | v :: b, [] => Got v {| cap := cap c; buf := b; sendq := []; recvq := recvq c |}
  | v :: b, w :: q =>
      Got v {| cap := cap c; buf := b ++ [w]; sendq := q; recvq := recvq c |}
  | [], w :: q => Got w {| cap := cap c; buf := []; sendq := q; recvq := recvq c |}
  | [], [] =>
      RecvParked {| cap := cap c; buf := []; sendq := []; recvq := recvq c + 1 |}
  end.

(** A [chan MsgRes] held in a request: the channel it refers to. *)
Definition ChanRef := nat.

Record PktReq := { Packet : bytes; Chresp : ChanRef }.

(** [core.Registration] is an interface the adapter never looks into. *)
Record RegReq := { Registration : string; RegChresp : ChanRef }.

(** Modelled from the spec: [mqttAckNacker] is declared in another file of the
    package; [Next] builds it from the response channel of the request. *)
Record mqttAckNacker := { AckChresp : ChanRef }.

(** The adapter, without the client and the logger. *)
Record Adapter := {
  packets : chan PktReq;
  registrations : chan RegReq
}.

Definition NewAdapter : Adapter :=
  {| packets := make 0; registrations := make 0 |}.

(** What [Next] returns for the request it took from [a.packets]. *)
Definition answer (r : PktReq) : bytes * mqttAckNacker * option Error :=
  (Packet r, {| AckChresp := Chresp r |}, None).

(** [Next]: the adapter afterwards, and the three results when the receive
    went through; [None] while the caller is parked on [a.packets]. *)
Definition Next (a : Adapter) : Adapter * option (bytes * mqttAckNacker * option Error) :=
  match recv (packets a) with
  | Got r c => ({| packets := c; registrations := registrations a |}, Some (answer r))
  | RecvParked c => ({| packets := c; registrations := registrations a |}, None)
  end.

(** [NextRegistration]: [return nil, nil, nil]. *)
Definition NextRegistration (a : Adapter)
  : Adapter * option (option string * option mqttAckNacker * option Error) :=
  (a, Some (None, None, None)).

(** A handler's [chpkt <- req] and [chreg <- req], as [Bind] lets it do. *)
Definition enqueue (a : Adapter) (r : PktReq) : Sent PktReq := send (packets a) r.

Definition enqueue_registration (a : Adapter) (r : RegReq) : Sent RegReq :=
  send (registrations a) r.

(** The funnel at work: handlers enqueue, one consumer calls [Next] and
    [NextRegistration]. *)
Inductive Event :=
| Enqueue (r : PktReq)
| EnqueueRegistration (r : RegReq)
| CallNext
| CallNextRegistration.

Record World := {
  adapter : Adapter;
  in_next : bool;    (* the consumer is parked inside [Next] *)
  answers : list (bytes * mqttAckNacker * option Error) (* what [Next] returned so far *)
}.

Definition start : World :=
  {| adapter := NewAdapter; in_next := false; answers := [] |}.

Definition chan_of {A} (s : Sent A) : chan A :=
  match s with Handed c | Buffered c | SendParked c => c end.

Definition event (w : World) (e : Event) : option World :=
  match e with
  | Enqueue r =>
      match enqueue (adapter w) r with
      | Handed c =>
          Some {| adapter := {| packets := c;
                               registrations := registrations (adapter w) |};
                  in_next := false; answers := answers w ++ [answer r] |}
      | Buffered c | SendParked c =>
          Some {| adapter := {| packets := c;
                               registrations := registrations (adapter w) |};
                  in_next := in_next w; answers := answers w |}
      end
  | EnqueueRegistration r =>
      Some {| adapter :=
                {| packets := packets (adapter w);
                   registrations := chan_of (enqueue_registration (adapter w) r) |};
              in_next := in_next w; answers := answers w |}
  | CallNext =>
      if in_next w then None
      else match Next (adapter w) with
           | (a, Some r) =>
               Some {| adapter := a; in_next := false; answers := answers w ++ [r] |}
           | (a, None) =>
               Some {| adapter := a; in_next := true; answers := answers w |}
           end
  | CallNextRegistration =>
      if in_next w then None
      else Some {| adapter := (NextRegistration (adapter w)).1;
                   in_next := false; answers := answers w |}
  end.

Fixpoint events (w : World) (es : list Event) : option World :=
  match es with
  | [] => Some w
  | e :: es' => w' ← event w e; events w' es'
  end.

(** The requests the handlers have enqueued, in the order of their arrival. *)
Fixpoint arrivals (es : list Event) : list PktReq :=
  match es with
  | [] => []
  | Enqueue r :: es' => r :: arrivals es'
  | _ :: es' => arrivals es'
  end.

(** What holds of the funnel whatever the handlers and the consumer do: the
    two channels have no buffer; the requests not yet answered are the senders
    parked on [packets], in the order of their arrival; the consumer is parked
    there only when there is none. *)
Record funnel_inv (es : list Event) (w : World) : Prop := {
  fi_cap : cap (packets (adapter w)) = 0;
  fi_buf : buf (packets (adapter w)) = [];
  fi_recvq : recvq (packets (adapter w)) = if in_next w then 1 else 0;
  fi_parked : in_next w = true → sendq (packets (adapter w)) = [];
  fi_split : ∃ taken,
    arrivals es = taken ++ sendq (packets (adapter w)) ∧
    answers w = answer <$> taken;
  fi_reg_cap : cap (registrations (adapter w)) = 0;
  fi_reg_buf : buf (registrations (adapter w)) = [];
  fi_reg_recvq : recvq (registrations (adapter w)) = 0
}.

(** The registrations the handlers have sent into [a.registrations], in the
    order of their arrival. *)
Fixpoint registrations_sent (es : list Event) : list RegReq :=
  match es with
  | [] => []
  | EnqueueRegistration r :: es' => r :: registrations_sent es'
  | _ :: es' => registrations_sent es'
  end.

End Funnel.

(** * Calls of [Send] to try the model on *)

Module Demo.

Definition payload : bytes := [Byte.x40; Byte.x01; Byte.x02].

(** The bytes of ACK1 and of ACK2. *)
Definition ack1 : bytes := [Byte.x41; Byte.x43; Byte.x4b; Byte.x31].
Definition ack2 : bytes := [Byte.x41; Byte.x43; Byte.x4b; Byte.x32].

Definition good_packet : Packet := {| MarshalBinary := inl payload |}.
Definition bad_packet : Packet := {| MarshalBinary := inr "invalid MType" |}.

Definition R1 : Recipient :=
  Mqtt {| TopicUp := "app/dev1/up"; TopicDown := "app/dev1/down" |}.
Definition R2 : Recipient :=
  Mqtt {| TopicUp := "app/dev2/up"; TopicDown := "app/dev2/down" |}.
Definition stranger : Recipient := Foreign "http recipient".

(** The state a run ends in ([init] if it is no run). *)
Definition final (p : Packet) (rs : list Recipient) (tr : list Label) : State :=
  default (init rs) (run p rs (init rs) tr).

(** [R1] answers and [R2] never does: up to [wg.Wait()]. *)
Definition R1_answers : list Label :=
  [LMarshal; LSubscribe 0 None; LSubscribe 1 None; LPublish 1 None;
   LPublish 0 None; LDeliver 0 ack1; LRecv 0; LDeliver 0 ack2; LForward 0;
   LTimeout 1; LUnsubscribe 0 None; LPubDone 0; LUnsubscribe 1 None;
   LColDone 1; LPubDone 1; LColDone 0].

(** Both answer. *)
Definition both_answer : list Label :=
  [LMarshal; LSubscribe 0 None; LSubscribe 1 None; LPublish 0 None;
   LPublish 1 None; LDeliver 1 ack2; LDeliver 0 ack1; LRecv 1; LRecv 0;
   LForward 1; LForward 0; LUnsubscribe 0 None; LUnsubscribe 1 None;
   LPubDone 0; LPubDone 1; LColDone 0; LColDone 1].

(** Nobody answers, and the publication to [R2] fails. *)
Definition publish_fails : list Label :=
  [LMarshal; LSubscribe 0 None; LSubscribe 1 None; LPublish 0 None;
   LPublish 1 (Some "connection lost"); LPubRecord 1; LTimeout 0; LTimeout 1;
   LUnsubscribe 0 None; LUnsubscribe 1 (Some "connection lost");
   LPubDone 0; LPubDone 1; LColDone 0; LColDone 1].

(** Nobody answers and nothing fails. *)
Definition nobody_answers : list Label :=
  [LMarshal; LSubscribe 0 None; LPublish 0 None; LTimeout 0;
   LUnsubscribe 0 None; LPubDone 0; LColDone 0].

(** The subscription for [R1] fails. *)
Definition subscribe_fails : list Label :=
  [LMarshal; LSubscribe 0 (Some "not authorized"); LRecord 0;
   LSubscribe 1 None; LPublish 1 None; LDeliver 1 ack2; LRecv 1; LForward 1;
   LUnsubscribe 1 None; LPubDone 1; LColDone 1].

(** The only recipient is no [MqttRecipient]. *)
Definition stranger_skipped : list Label := [LMarshal; LSkip 0; LRecord 0].

(** Two requests arrive, the consumer takes them, then waits for a third. *)
Definition req1 : Funnel.PktReq := {| Funnel.Packet := payload; Funnel.Chresp := 1 |}.
Definition req2 : Funnel.PktReq := {| Funnel.Packet := ack1; Funnel.Chresp := 2 |}.
Definition req3 : Funnel.PktReq := {| Funnel.Packet := ack2; Funnel.Chresp := 3 |}.

Definition busy_funnel : list Funnel.Event :=
  [Funnel.Enqueue req1; Funnel.Enqueue req2; Funnel.CallNext;
   Funnel.CallNextRegistration; Funnel.CallNext; Funnel.CallNext;
   Funnel.Enqueue req3].

Definition funnel_after (es : list Funnel.Event) : Funnel.World :=
  default Funnel.start (Funnel.events Funnel.start es).

End Demo.

(** * Facts about runs of [Send] *)

(** The definitions of the model, unfolded by name. *)
Ltac unfold_Reach := unfold Reach in *.
Ltac unfold_nb := unfold nb in *.
Ltac unfold_step := unfold step, push_err, push_resp, wg_done.
Ltac unfold_step_in H := unfold step, push_err, push_resp, wg_done in H.

Section SendFacts.

Variable p : Packet.
Variable recipients : list Recipient.

Local Abbreviation nb := (nb recipients).
Local Abbreviation step := (step p recipients).
Local Abbreviation run := (run p recipients).
Local Abbreviation init := (init recipients).
Local Abbreviation Reach := (Reach p recipients).
Local Abbreviation call := (call recipients).
Local Abbreviation wf := (wf recipients).
Local Abbreviation slot_inv := (slot_inv recipients).
Local Abbreviation slots_inv := (slots_inv recipients).

Lemma run_app s a b : run s (a ++ b) = s' ← run s a; run s' b.
Proof.
  revert s. induction a as [|l a IH]; intros s; simpl; [done|].
  destruct (step s l); simpl; auto.
Qed.

Lemma run_snoc s tr l : run s (tr ++ [l]) = s' ← run s tr; step s' l.
Proof.
  rewrite run_app. destruct (run s tr) as [s'|]; simpl; [|done].
  by destruct (step s' l).
Qed.

Lemma run_one s l s' : step s l = Some s' → run s [l] = Some s'.
Proof. intros H. simpl. by rewrite H. Qed.

Lemma run_two s l1 s1 l2 s2 :
  step s l1 = Some s1 → step s1 l2 = Some s2 → run s [l1; l2] = Some s2.
Proof. intros H1 H2. simpl. rewrite H1. simpl. by rewrite H2. Qed.

(** Induction over the runs of [Send], the last step taken last. *)
Lemma Reach_induction (P : list Label → State → Prop) :
  P [] init →
  (∀ tr s l s', Reach tr s → P tr s → step s l = Some s' → P (tr ++ [l]) s') →
  ∀ tr s, Reach tr s → P tr s.
Proof.
  intros H0 Hstep tr. induction tr as [|l tr IH] using rev_ind; intros s Hr.
  - unfold_Reach. simpl in Hr. by simplify_eq.
  - unfold_Reach. rewrite run_snoc in Hr.
    destruct (run init tr) as [s0|] eqn:E; simpl in Hr; [|done].
    eapply Hstep; eauto.
Qed.

Ltac step_inv H :=
  unfold_step_in H;
  repeat (case_match; simplify_option_eq; try done);
  repeat match goal with
    | H : (_ =? _) = true |- _ => apply Nat.eqb_eq in H; subst
    end.

Ltac slot_cases :=
  match goal with
  | H : <[?i0 := _]> _ !! ?i = Some _ |- _ =>
      destruct (decide (i0 = i)) as [->|?];
      [ rewrite list_lookup_insert_eq in H by eauto using lookup_lt_Some
      | rewrite list_lookup_insert_ne in H by done ]
  end.

Lemma after_cases i :
  i < nb →
  (after recipients i = MLoop (S i) ∧ S i < nb) ∨
  (after recipients i = MWait ∧ S i = nb).
Proof.
  intros. unfold after. destruct (Nat.ltb_spec (S i) nb); [auto|].
  right. split; [done|]. unfold_nb. lia.
Qed.

Lemma first_pc_cases :
  (first_pc recipients = MLoop 0 ∧ 0 < nb) ∨
  (first_pc recipients = MWait ∧ nb = 0).
Proof.
  unfold first_pc. destruct (Nat.ltb_spec 0 nb); [auto|].
  right. split; [done|]. unfold_nb. lia.
Qed.

Lemma wf_init : wf init.
Proof.
  split; simpl; try done.
  - apply length_replicate.
  - intros i sl [-> _]%lookup_replicate _. done.
  - intros i sl [-> _]%lookup_replicate _. done.
  - intros i sl [-> _]%lookup_replicate. done.
Qed.

Ltac pc_cases :=
  repeat match goal with
    | H : context [after recipients ?i] |- _ =>
        let E := fresh in
        destruct (after_cases i) as [[E ?]|[E ?]]; [try lia; eauto; fail| |];
        rewrite E in H; clear E
    | |- context [after recipients ?i] =>
        let E := fresh in
        destruct (after_cases i) as [[E ?]|[E ?]]; [try lia; eauto; fail| |];
        rewrite E; clear E
    | H : context [first_pc recipients] |- _ =>
        let E := fresh in
        destruct first_pc_cases as [[E ?]|[E ?]]; rewrite E in H; clear E
    | |- context [first_pc recipients] =>
        let E := fresh in
        destruct first_pc_cases as [[E ?]|[E ?]]; rewrite E; clear E
    end.

Ltac forward_hyps :=
  repeat match goal with
    | H : recipients !! ?i = Some _, H' : context [recipients !! ?i] |- _ =>
        rewrite H in H'; simpl in H'; simplify_eq
    | H : ?A → _ |- _ =>
        let HA := fresh in
        assert (HA : A) by (lia || congruence); specialize (H HA); clear HA
    | H : recipients !! _ = Some _ |- _ =>
        apply lookup_lt_Some in H; fold nb in H
    end.

Ltac finish := forward_hyps; intuition (try congruence; try lia).

Lemma wf_step s l s' : wf s → step s l = Some s' → wf s'.
Proof.
  intros [Hlen Hloop Hse Hfr Hfo Hpair] H.
  destruct l; step_inv H.
  all: split; simpl; rewrite ?length_insert; try done.
  all: intros; try slot_cases; simplify_eq/=; pc_cases; simplify_eq/=.
  all: repeat match goal with
         | H : slots _ !! ?i = Some ?sl |- _ =>
             pose proof (Hfr _ _ H); pose proof (Hfo _ _ H);
             pose proof (Hpair _ _ H);
             pose proof (lookup_lt_Some _ _ _ H); clear H
         end; clear Hfr Hfo Hpair.
  all: unfold idle in *; simpl in *; try lia; finish.
Qed.

Lemma Reach_wf tr s : Reach tr s → wf s.
Proof.
  revert tr s. apply Reach_induction; [apply wf_init|].
  eauto using wf_step.
Qed.

(** *** Counting the labels of a run *)

Lemma count_app c i a b : count c i (a ++ b) = count c i a + count c i b.
Proof. induction a as [|l a IH]; simpl; [done|]. rewrite IH. lia. Qed.

Lemma count_snoc c i tr l :
  count c i (tr ++ [l]) = count c i tr + (if bool_decide (c l = Some i) then 1 else 0).
Proof. rewrite count_app. simpl. lia. Qed.

Lemma total_app c a b : total c (a ++ b) = total c a + total c b.
Proof. induction a as [|l a IH]; simpl; [done|]. rewrite IH. lia. Qed.

Lemma marshals_app a b : marshals (a ++ b) = marshals a + marshals b.
Proof. induction a as [|[] a IH]; simpl; try done. by rewrite IH. Qed.

Lemma delivered_app i a b : delivered i (a ++ b) = delivered i a ++ delivered i b.
Proof.
  induction a as [|l a IH]; simpl; [done|].
  destruct l; try done. case_bool_decide; simpl; by rewrite ?IH.
Qed.

Lemma count_elem_of c i tr l : l ∈ tr → c l = Some i → 1 ≤ count c i tr.
Proof.
  induction 1 as [l tr|l l' tr _ IH]; intros Hc; simpl.
  - rewrite bool_decide_eq_true_2 by done. lia.
  - specialize (IH Hc). lia.
Qed.

Lemma count_zero_not_elem_of c i tr l : count c i tr = 0 → c l = Some i → l ∉ tr.
Proof. intros H0 Hc Hin. pose proof (count_elem_of _ _ _ _ Hin Hc). lia. Qed.

Lemma sum_indicator (j a n : nat) :
  sum_list_with (λ i, if bool_decide (Some j = Some i) then 1 else 0) (seq a n) =
  if bool_decide (a ≤ j < a + n) then 1 else 0.
Proof.
  revert a. induction n as [|n IH]; intros a; simpl.
  - rewrite bool_decide_eq_false_2 by lia. done.
  - rewrite IH. destruct (decide (j = a)) as [->|Hne].
    + rewrite bool_decide_eq_true_2 by done.
      rewrite bool_decide_eq_false_2, bool_decide_eq_true_2 by lia. done.
    + rewrite (bool_decide_eq_false_2 (Some j = Some a)) by congruence.
      repeat case_bool_decide; lia.
Qed.

Lemma sum_list_with_add (f g : nat → nat) l :
  sum_list_with (λ i, f i + g i) l = sum_list_with f l + sum_list_with g l.
Proof. induction l; simpl; lia. Qed.

(** When every label of class [c] concerns a recipient below [n], the labels
    of the class are those of the [n] recipients together. *)
Lemma total_count c tr n :
  (∀ l i, l ∈ tr → c l = Some i → i < n) →
  total c tr = sum_list_with (λ i, count c i tr) (seq 0 n).
Proof.
  induction tr as [|l tr IH]; intros Hn; simpl.
  - induction (seq 0 n); simpl; lia.
  - rewrite sum_list_with_add, <-IH by (intros; eapply Hn; [by right|done]).
    f_equal. destruct (c l) as [j|] eqn:Hc.
    + rewrite sum_indicator, bool_decide_eq_true_2; [done|].
      pose proof (Hn l j (list_elem_of_here _ _) Hc). lia.
    + clear. induction (seq 0 n) as [|x xs IHxs]; [done|].
      cbn [sum_list_with]. case_bool_decide; [done|]. exact IHxs.
Qed.

Lemma sum_at_most_one (f : nat → nat) a n :
  (∀ i, f i ≤ 1) → sum_list_with f (seq a n) ≤ n.
Proof.
  intros Hf. revert a. induction n as [|n IH]; intros a; simpl; [done|].
  specialize (IH (S a)). specialize (Hf a). lia.
Qed.

Lemma sum_at_most_one_but (f : nat → nat) a n j :
  (∀ i, f i ≤ 1) → f j = 0 → a ≤ j < a + n →
  sum_list_with f (seq a n) < n.
Proof.
  intros Hf Hj. revert a. induction n as [|n IH]; intros a Ha; simpl; [lia|].
  destruct (decide (a = j)) as [->|].
  - pose proof (sum_at_most_one f (S j) n Hf). lia.
  - specialize (IH (S a)). specialize (Hf a). lia.
Qed.

(** *** Runs in pieces *)

Lemma Reach_app tr s tr' s' : Reach tr s → run s tr' = Some s' → Reach (tr ++ tr') s'.
Proof.
  unfold_Reach. intros Hr Hr'. rewrite run_app, Hr. done.
Qed.

Lemma Reach_split pre l post s :
  Reach (pre ++ l :: post) s →
  ∃ s1 s2, Reach pre s1 ∧ step s1 l = Some s2 ∧ run s2 post = Some s.
Proof.
  unfold_Reach. rewrite run_app. intros Hr.
  destruct (run init pre) as [s1|]; simpl in Hr; [|done].
  destruct (step s1 l) as [s2|] eqn:Hs; simpl in Hr; [|done]. eauto.
Qed.

Lemma Reach_elem_of tr s l :
  Reach tr s → l ∈ tr → ∃ pre post s1 s2,
    tr = pre ++ l :: post ∧ Reach pre s1 ∧ step s1 l = Some s2 ∧ run s2 post = Some s.
Proof.
  intros Hr (pre & post & ->)%list_elem_of_split.
  destruct (Reach_split _ _ _ _ Hr) as (s1 & s2 & ? & ? & ?). eauto 10.
Qed.

(** A label that concerns a recipient concerns one of [recipients]. *)
Lemma step_index s l s' i : wf s → step s l = Some s' → index l = Some i → i < nb.
Proof.
  intros [Hlen _ _ _ _ _] H Hi.
  destruct l; simplify_eq/=; step_inv H.
  all: repeat match goal with
         | H : slots _ !! _ = Some _ |- _ => apply lookup_lt_Some in H
         | H : recipients !! _ = Some _ |- _ => apply lookup_lt_Some in H
         end; unfold_nb; lia.
Qed.

Lemma Reach_index tr s l i : Reach tr s → l ∈ tr → index l = Some i → i < nb.
Proof.
  intros Hr Hl Hi.
  destruct (Reach_elem_of _ _ _ Hr Hl) as (pre & post & s1 & s2 & _ & Hpre & Hs & _).
  eauto using step_index, Reach_wf.
Qed.

Lemma count_none c i tr : (∀ l, l ∈ tr → c l ≠ Some i) → count c i tr = 0.
Proof.
  induction tr as [|l tr IH]; intros Hc; simpl; [done|].
  rewrite bool_decide_eq_false_2 by (apply Hc; left).
  rewrite IH; [done|]. intros l' Hl'. apply Hc. by right.
Qed.

(** *** When the marshalling fails *)

(** [Send] computes the error and returns; nothing else happens. *)
Lemma Reach_failed err tr s :
  MarshalBinary p = inr err → Reach tr s →
  (tr = [] ∧ s = init) ∨
  (tr = [LMarshal] ∧
   s = set_main (MReturned (None, Some (errors_New ErrInvalidStructure err))) init).
Proof.
  intros Herr. revert tr s. apply Reach_induction; [by left|].
  intros tr s l s' _ [[-> ->]|[-> ->]] H.
  - right. destruct l; step_inv H; try done.
    all: repeat match goal with
           | H : replicate _ _ !! _ = Some _ |- _ =>
               apply lookup_replicate in H; destruct H as [-> _]
           end; simplify_eq/=.
  - exfalso. destruct l; step_inv H.
    all: repeat match goal with
           | H : replicate _ _ !! _ = Some _ |- _ =>
               apply lookup_replicate in H; destruct H as [-> _]
           end; simplify_eq/=.
Qed.

Lemma Reach_marshalled tr s l :
  Reach tr s → l ∈ tr → l ≠ LMarshal → ∃ d, MarshalBinary p = inl d.
Proof.
  intros Hr Hl Hne. destruct (MarshalBinary p) as [d|err] eqn:E; [eauto|].
  destruct (Reach_failed _ _ _ E Hr) as [[-> _]|[-> _]].
  - by apply elem_of_nil in Hl.
  - apply list_elem_of_singleton in Hl. done.
Qed.

Lemma Reach_marshalled_main tr s :
  Reach tr s → main s ≠ MMarshal → (∀ r, main s ≠ MReturned r) →
  ∃ d, MarshalBinary p = inl d.
Proof.
  intros Hr H1 H2. destruct (MarshalBinary p) as [d|err] eqn:E; [eauto|].
  destruct (Reach_failed _ _ _ E Hr) as [[-> ->]|[-> ->]]; simpl in *; [done|].
  by edestruct H2.
Qed.

(** *** The three sends into the buffers, when there is room *)

Lemma step_LRecord s i e r sl :
  main s = MSendErr i e → recipients !! i = Some r → slots s !! i = Some sl →
  length (cherr s) < nb →
  ∃ s', step s (LRecord i) = Some s' ∧ cherr s' = cherr s ++ [e] ∧
        chresp s' = chresp s ∧ main s' = after recipients i.
Proof.
  intros Hm Hr Hsl Hroom. unfold_step.
  rewrite Hm, Hr, Hsl, Nat.eqb_refl. simpl.
  destruct (Nat.ltb_spec (length (cherr s)) nb); [|lia]. simpl.
  destruct (as_MqttRecipient r); eauto.
Qed.

Lemma step_LPubRecord s i e sl :
  slots s !! i = Some sl → pub sl = PubSendErr e → length (cherr s) < nb →
  ∃ s', step s (LPubRecord i) = Some s' ∧ cherr s' = cherr s ++ [e] ∧
        chresp s' = chresp s ∧ main s' = main s.
Proof.
  intros Hsl Hp Hroom. unfold_step. rewrite Hsl, Hp.
  destruct (Nat.ltb_spec (length (cherr s)) nb); [|lia]. simpl. eauto.
Qed.

Lemma step_LForward s i b sl :
  slots s !! i = Some sl → col sl = ColSendResp b → length (chresp s) < nb →
  ∃ s', step s (LForward i) = Some s' ∧ chresp s' = chresp s ++ [b] ∧
        cherr s' = cherr s ∧ main s' = main s ∧
        slots s' = <[i := set_col ColUnsubscribe sl]> (slots s).
Proof.
  intros Hsl Hc Hroom. unfold_step. rewrite Hsl, Hc.
  destruct (Nat.ltb_spec (length (chresp s)) nb); [|lia]. simpl. eauto 10.
Qed.

(** *** Two more facts about counting *)

Lemma count_subscribes i tr :
  count subscribes i tr = count subscribes_ok i tr + count subscribes_ko i tr.
Proof.
  induction tr as [|l tr IH]; simpl; [done|]. rewrite IH.
  destruct l as [| | j [e|] | | | | | | | | | | | | |]; simpl;
    repeat case_bool_decide; simplify_eq; lia.
Qed.

Lemma count_pos_elem_of c i tr : 0 < count c i tr → ∃ l, l ∈ tr ∧ c l = Some i.
Proof.
  induction tr as [|l tr IH]; simpl; [lia|].
  case_bool_decide as Hc.
  - intros _. exists l. split; [left|done].
  - intros H. destruct IH as (l' & ? & ?); [lia|]. exists l'. split; [by right|done].
Qed.

(** *** The error the caller is about to record *)

Lemma senderr_step s l s' i e :
  step s l = Some s' → main s' = MSendErr i e →
  main s = MSendErr i e ∨ (main s = MLoop i ∧ senderr_ok recipients i e).
Proof.
  intros H Hm. unfold senderr_ok.
  destruct l; step_inv H; simpl in *; simplify_eq; eauto.
  all: try (unfold after in Hm; case_match; done).
  all: try (unfold first_pc in Hm; case_match; done).
  - right. split; [done|]. left. split; [congruence|done].
  - right. split; [done|]. right. split; [|done].
    match goal with H : as_MqttRecipient _ = Some ?m |- _ => exists m; by rewrite H end.
Qed.

Lemma senderr_inv tr s :
  Reach tr s → ∀ i e, main s = MSendErr i e → senderr_ok recipients i e.
Proof.
  revert tr s.
  apply (Reach_induction (λ _ s, ∀ i e, main s = MSendErr i e → senderr_ok recipients i e));
    [done|].
  intros tr s l s' _ IH H i e Hm.
  destruct (senderr_step _ _ _ _ _ H Hm) as [Hm'|[_ ?]]; eauto.
Qed.

(** *** The counter of the wait group *)

Lemma sum_list_with_insert (f : Slot → nat) (l : list Slot) i x y :
  l !! i = Some x →
  sum_list_with f (<[i:=y]> l) + f x = sum_list_with f l + f y.
Proof.
  revert i. induction l as [|a l IH]; intros [|i] Hi; simplify_eq/=; [lia|].
  specialize (IH _ Hi). lia.
Qed.

Lemma sum_list_with_lookup (f : Slot → nat) (l : list Slot) i x :
  l !! i = Some x → f x ≤ sum_list_with f l.
Proof.
  revert i. induction l as [|a l IH]; intros [|i] Hi; simplify_eq/=; [lia|].
  specialize (IH _ Hi). lia.
Qed.

Lemma sum_list_with_replicate (f : Slot → nat) n x :
  sum_list_with f (replicate n x) = n * f x.
Proof. induction n; simpl; lia. Qed.

Section Marshalled.

Variable d : bytes.
Hypothesis Hd : MarshalBinary p = inl d.

Lemma main_inv_step tr s l s' :
  wf s → main_inv tr s → step s l = Some s' → main_inv (tr ++ [l]) s'.
Proof.
  intros Hwf Hinv H.
  destruct l; step_inv H.
  all: destruct Hwf as [Hlen Hloop Hse Hfr Hfo Hpair];
       destruct Hinv as [Hf Hm Herr Hresp].
  all: split; simpl in *;
       rewrite ?marshals_app, ?total_app, ?length_app; simpl; try lia.
  all: pc_cases; try lia; try done.
  all: try match goal with
         | H : slots _ !! _ = Some _ |- _ = MMarshal → _ =>
             let E := fresh in
             intros E; rewrite E in Hfr; destruct (Hfr _ _ H); [simpl; lia|];
             congruence
         end.
  all: try match goal with H : main _ = _ |- _ => rewrite H in * end; try lia;
       try done.
  all: try (rewrite Hf by done; done).
  all: try (destruct (main s); simpl in *; lia).
  all: try (destruct (chresp s); simpl in *; lia).
Qed.

Lemma Reach_main_inv tr s : Reach tr s → main_inv tr s.
Proof.
  revert tr s. apply Reach_induction; [by split|].
  eauto using main_inv_step, Reach_wf.
Qed.

Lemma slots_inv_init : slots_inv [] init.
Proof.
  intros i sl [-> _]%lookup_replicate. split; simpl; done || lia.
Qed.


Ltac some_neq :=
  repeat match goal with
    | H : Some ?a ≠ Some ?b |- _ =>
        assert (a ≠ b) by congruence; clear H
    end.

Lemma slots_inv_step tr s l s' :
  wf s → slots_inv tr s → step s l = Some s' → slots_inv (tr ++ [l]) s'.
Proof.
  intros Hwf Hinv H.
  destruct l; step_inv H.
  all: destruct Hwf as [Hlen Hloop Hse Hfr Hfo Hpair].
  all: intros j sl Hj; simpl in *; try slot_cases; simplify_eq/=.
  all: try match goal with
         | H1 : slots ?s !! ?i = Some _, H2 : slots ?s !! ?j = Some _ |- _ =>
             tryif constr_eq i j then fail
             else (destruct (decide (i = j)); simplify_eq/=)
         end.
  all: repeat match goal with
         | H : slots _ !! ?i = Some ?sl |- _ =>
             pose proof (Hfr _ _ H); pose proof (Hfo _ _ H);
             pose proof (Hpair _ _ H);
             pose proof (lookup_lt_Some _ _ _ H);
             destruct (Hinv _ _ H); clear H
         end; clear Hfr Hfo Hpair Hinv.
  all: split.
  all: unfold idle, may_have_recorded in *; pc_cases.
  all: repeat match goal with H : main _ = _ |- _ => rewrite H in *; clear H end.
  all: simpl in *; forward_hyps; destruct_and?.
  all: try match goal with H : pub ?x = _ |- _ => is_var x; rewrite H in * end;
       try match goal with H : col ?x = _ |- _ => is_var x; rewrite H in * end;
       try done.
  all: rewrite ?count_snoc, ?delivered_app; simpl;
       repeat case_bool_decide; simplify_eq/=; some_neq;
       rewrite ?app_nil_r; try done; try lia.
  all: unfold visited in *; simpl in *;
       repeat match goal with
         | |- context [pub ?x] => is_var x; destruct (pub x)
         end;
       repeat case_bool_decide; simplify_eq/=; try lia; try done.
  all: repeat match goal with
         | |- context [col ?x] => is_var x; destruct (col x)
         end; simpl in *; destruct_and?; try lia; try done;
       repeat match goal with
         | H : delivered _ _ = _ |- _ => rewrite H; clear H
         end; try done.
Qed.

Lemma Reach_slots_inv tr s : Reach tr s → slots_inv tr s.
Proof.
  revert tr s. apply Reach_induction; [apply slots_inv_init|].
  eauto using slots_inv_step, Reach_wf.
Qed.

Lemma sum_tasks_left_idle (l : list Slot) :
  (∀ i sl, l !! i = Some sl → idle sl) →
  sum_list_with tasks_left l = 2 * length l.
Proof.
  induction l as [|a l IH]; intros Hl; simpl; [done|].
  destruct (Hl 0 a eq_refl) as [Ha Hb]. unfold tasks_left at 1.
  rewrite Ha, Hb, IH; [lia|]. intros i sl Hi. apply (Hl (S i) sl Hi).
Qed.

Lemma wg_inv_step s l s' : wf s → wg_inv s → step s l = Some s' → wg_inv s'.
Proof.
  intros [Hlen Hloop Hse Hfr Hfo Hpair] Hwg H. unfold wg_inv in *.
  destruct l; step_inv H; simpl in *.
  all: pc_cases; repeat case_match; simplify_eq/=.
  all: try match goal with
         | H : slots _ !! _ = Some _ |- _ =>
             pose proof (sum_list_with_lookup tasks_left _ _ _ H);
             pose proof (Hfr _ _ H); pose proof (Hpair _ _ H)
         end.
  all: try match goal with
         | H : slots _ !! _ = Some _ |- context [ <[_ := ?y]> _ ] =>
             pose proof (sum_list_with_insert tasks_left _ _ _ y H)
         end.
  all: try (rewrite sum_tasks_left_idle by (intros; eapply Hfr; [done|lia]); lia).
  all: unfold tasks_left, idle in *; simpl in *;
       repeat match goal with
         | H : pub _ = _ |- _ => rewrite H in *
         | H : col _ = _ |- _ => rewrite H in *
         end.
  all: try (split; lia); try lia.
  all: forward_hyps; destruct_and?;
       repeat match goal with
         | H : pub _ = _ |- _ => rewrite H in *
         | H : col _ = _ |- _ => rewrite H in *
         end; try lia.
Qed.

Lemma Reach_wg_inv tr s : Reach tr s → wg_inv s.
Proof.
  revert tr s. apply Reach_induction; [done|].
  eauto using wg_inv_step, Reach_wf.
Qed.

(** *** The two buffers never overflow *)

Lemma slot_of tr s i :
  Reach tr s → i < nb → ∃ sl, slots s !! i = Some sl ∧ slot_inv tr (main s) i sl.
Proof.
  intros Hr Hi. pose proof (Reach_wf _ _ Hr) as Hwf.
  destruct (lookup_lt_is_Some_2 (slots s) i) as [sl Hsl].
  { by rewrite (wf_length _ _ Hwf). }
  exists sl. split; [done|]. by apply (Reach_slots_inv _ _ Hr).
Qed.

Lemma count_out_of_range c tr s i :
  (∀ l j, c l = Some j → index l = Some j) →
  Reach tr s → nb ≤ i → count c i tr = 0.
Proof.
  intros Hc Hr Hi. apply count_none. intros l Hl Hcl.
  pose proof (Reach_index _ _ _ _ Hr Hl (Hc _ _ Hcl)). lia.
Qed.

Lemma records_index l j : records l = Some j → index l = Some j.
Proof. by destruct l. Qed.

Lemma forwards_index l j : forwards l = Some j → index l = Some j.
Proof. by destruct l. Qed.

Lemma unsubscribes_index l j : unsubscribes l = Some j → index l = Some j.
Proof. by destruct l. Qed.

Lemma subscribes_index l j : subscribes l = Some j → index l = Some j.
Proof. by destruct l. Qed.

Lemma publishes_index l j : publishes l = Some j → index l = Some j.
Proof. by destruct l. Qed.

Lemma count_records_le tr s i : Reach tr s → count records i tr ≤ 1.
Proof.
  intros Hr. destruct (decide (i < nb)) as [Hi|Hi].
  - destruct (slot_of _ _ _ Hr Hi) as (sl & _ & [_ _ _ _ H _ _]).
    unfold may_have_recorded in H. repeat case_match; lia.
  - rewrite (count_out_of_range records tr s); eauto using records_index with lia.
Qed.

Lemma count_forwards_le tr s i : Reach tr s → count forwards i tr ≤ 1.
Proof.
  intros Hr. destruct (decide (i < nb)) as [Hi|Hi].
  - destruct (slot_of _ _ _ Hr Hi) as (sl & _ & [_ _ _ H _ _ _]).
    unfold past_select in H. repeat case_match; lia.
  - rewrite (count_out_of_range forwards tr s); eauto using forwards_index with lia.
Qed.

Lemma count_unsubscribes_le tr s i : Reach tr s → count unsubscribes i tr ≤ 1.
Proof.
  intros Hr. destruct (decide (i < nb)) as [Hi|Hi].
  - destruct (slot_of _ _ _ Hr Hi) as (sl & _ & [_ _ H _ _ _ _]).
    unfold unsubscribed in H. repeat case_match; lia.
  - rewrite (count_out_of_range unsubscribes tr s);
      eauto using unsubscribes_index with lia.
Qed.

Lemma total_records tr s :
  Reach tr s → total records tr = sum_list_with (λ i, count records i tr) (seq 0 nb).
Proof.
  intros Hr. apply total_count. intros l i Hl Hc.
  eauto using Reach_index, records_index.
Qed.

Lemma total_forwards tr s :
  Reach tr s → total forwards tr = sum_list_with (λ i, count forwards i tr) (seq 0 nb).
Proof.
  intros Hr. apply total_count. intros l i Hl Hc.
  eauto using Reach_index, forwards_index.
Qed.

Lemma cherr_le tr s : Reach tr s → length (cherr s) ≤ nb.
Proof.
  intros Hr. rewrite (mi_cherr _ _ (Reach_main_inv _ _ Hr)), (total_records _ _ Hr).
  apply sum_at_most_one. eauto using count_records_le.
Qed.

Lemma cherr_room tr s i :
  Reach tr s → i < nb → count records i tr = 0 → length (cherr s) < nb.
Proof.
  intros Hr Hi H0.
  rewrite (mi_cherr _ _ (Reach_main_inv _ _ Hr)), (total_records _ _ Hr).
  apply (sum_at_most_one_but _ _ _ i); eauto using count_records_le with lia.
Qed.

Lemma chresp_le_total tr s : Reach tr s → length (chresp s) ≤ total forwards tr.
Proof.
  intros Hr. pose proof (mi_chresp _ _ (Reach_main_inv _ _ Hr)) as H.
  destruct (main s); lia.
Qed.

Lemma chresp_le tr s : Reach tr s → length (chresp s) ≤ nb.
Proof.
  intros Hr. pose proof (chresp_le_total _ _ Hr).
  rewrite (total_forwards _ _ Hr) in *.
  pose proof (sum_at_most_one (λ i, count forwards i tr) 0 nb
                (λ i, count_forwards_le _ _ i Hr)).
  simpl in *. lia.
Qed.

Lemma chresp_room tr s i :
  Reach tr s → i < nb → count forwards i tr = 0 → length (chresp s) < nb.
Proof.
  intros Hr Hi H0. pose proof (chresp_le_total _ _ Hr).
  rewrite (total_forwards _ _ Hr) in *.
  pose proof (sum_at_most_one_but (λ i, count forwards i tr) 0 nb i
                (λ i, count_forwards_le _ _ i Hr) H0).
  simpl in *. lia.
Qed.

(** *** No send into the buffers blocks *)

Lemma record_enabled tr s i e :
  Reach tr s → main s = MSendErr i e →
  ∃ s', step s (LRecord i) = Some s' ∧ cherr s' = cherr s ++ [e] ∧
        chresp s' = chresp s ∧ main s' = after recipients i.
Proof.
  intros Hr Hm. pose proof (Reach_wf _ _ Hr) as Hwf.
  pose proof (wf_senderr _ _ Hwf _ _ Hm) as Hi.
  destruct (slot_of _ _ _ Hr Hi) as (sl & Hsl & Hinv).
  destruct (lookup_lt_is_Some_2 recipients i Hi) as [r Hrec].
  eapply step_LRecord; eauto. eapply cherr_room; eauto.
  destruct (wf_frontier _ _ Hwf _ _ Hsl) as [Hp _]; [rewrite Hm; simpl; lia|].
  pose proof (si_recorded _ _ _ _ _ Hinv) as Hc.
  unfold may_have_recorded in Hc. rewrite Hp, Hm in Hc. simpl in Hc.
  rewrite bool_decide_eq_false_2 in Hc by lia. lia.
Qed.

Lemma pub_record_enabled tr s i sl e :
  Reach tr s → slots s !! i = Some sl → pub sl = PubSendErr e →
  ∃ s', step s (LPubRecord i) = Some s' ∧ cherr s' = cherr s ++ [e] ∧
        chresp s' = chresp s ∧ main s' = main s.
Proof.
  intros Hr Hsl Hp. eapply step_LPubRecord; eauto.
  pose proof (lookup_lt_Some _ _ _ Hsl) as Hi.
  rewrite (wf_length _ _ (Reach_wf _ _ Hr)) in Hi.
  eapply cherr_room; eauto.
  pose proof (si_recorded _ _ _ _ _ (Reach_slots_inv _ _ Hr _ _ Hsl)) as Hc.
  unfold may_have_recorded in Hc. rewrite Hp in Hc. lia.
Qed.

Lemma forward_enabled tr s i sl b :
  Reach tr s → slots s !! i = Some sl → col sl = ColSendResp b →
  (∃ s', step s (LForward i) = Some s' ∧ chresp s' = chresp s ++ [b] ∧
         cherr s' = cherr s ∧ main s' = main s ∧
         slots s' = <[i := set_col ColUnsubscribe sl]> (slots s)) ∧
  head (delivered i tr) = Some b.
Proof.
  intros Hr Hsl Hc. pose proof (Reach_slots_inv _ _ Hr _ _ Hsl) as Hinv. split.
  - eapply step_LForward; eauto.
    pose proof (lookup_lt_Some _ _ _ Hsl) as Hi.
    rewrite (wf_length _ _ (Reach_wf _ _ Hr)) in Hi.
    eapply chresp_room; eauto.
    pose proof (si_forwarded _ _ _ _ _ Hinv) as Hf. rewrite Hc in Hf.
    simpl in Hf. lia.
  - pose proof (si_delivered _ _ _ _ _ Hinv) as Hd'. rewrite Hc in Hd'.
    by rewrite Hd'.
Qed.

(** *** Past [wg.Wait()] every goroutine is done *)

Lemma joined_all_done tr s i sl :
  Reach tr s → main s = MAggregate ∨ (∃ r, main s = MReturned r) →
  slots s !! i = Some sl → pub sl = PubDone ∧ col sl = ColDone.
Proof.
  intros Hr Hm Hsl. pose proof (Reach_wg_inv _ _ Hr) as Hwg.
  pose proof (sum_list_with_lookup tasks_left _ _ _ Hsl) as Hle.
  unfold wg_inv in Hwg.
  assert (tasks_left sl = 0) as H0.
  { destruct Hm as [Hm|[r Hm]]; rewrite Hm in Hwg; lia. }
  unfold tasks_left in H0. destruct (pub sl), (col sl); simpl in H0; done || lia.
Qed.

(** *** A recipient that was skipped *)

Lemma visited_le_one pc i : visited nb pc i ≤ 1.
Proof. unfold visited. repeat case_match; lia. Qed.

Lemma skipped_idle tr s i sl :
  Reach tr s → slots s !! i = Some sl →
  0 < count skips i tr + count subscribes_ko i tr → idle sl.
Proof.
  intros Hr Hsl Hc. pose proof (Reach_slots_inv _ _ Hr _ _ Hsl) as Hinv.
  pose proof (si_visited _ _ _ _ _ Hinv) as Hv.
  pose proof (si_subscribed _ _ _ _ _ Hinv) as Hs.
  pose proof (visited_le_one (main s) i).
  rewrite count_subscribes in Hv.
  assert (col sl = ColIdle) as Hcol.
  { destruct (col sl); simpl in Hs; done || lia. }
  split; [|done]. by apply (wf_pair _ _ (Reach_wf _ _ Hr) _ _ Hsl).
Qed.

Lemma skipped_in_range tr s i :
  Reach tr s → 0 < count skips i tr + count subscribes_ko i tr → i < nb.
Proof.
  intros Hr Hc.
  destruct (decide (0 < count skips i tr)) as [H|H].
  - destruct (count_pos_elem_of _ _ _ H) as (l & Hl & Hcl).
    eapply Reach_index; eauto. by destruct l.
  - destruct (count_pos_elem_of subscribes_ko i tr) as (l & Hl & Hcl); [lia|].
    eapply Reach_index; eauto. by destruct l as [| | ? [?|] | | | | | | | | | | | | |].
Qed.

Lemma skipped_blocks tr s i :
  Reach tr s → 0 < count skips i tr + count subscribes_ko i tr →
  main s ≠ MAggregate ∧ ∀ r, main s ≠ MReturned r.
Proof.
  intros Hr Hc. pose proof (skipped_in_range _ _ _ Hr Hc) as Hi.
  destruct (slot_of _ _ _ Hr Hi) as (sl & Hsl & _).
  destruct (skipped_idle _ _ _ _ Hr Hsl Hc) as [Hp _].
  split; [intros Hm|intros r Hm].
  - destruct (joined_all_done _ _ _ _ Hr (or_introl Hm) Hsl). congruence.
  - destruct (joined_all_done _ _ _ _ Hr (or_intror (ex_intro _ r Hm)) Hsl).
    congruence.
Qed.

(** *** A collector gets to its [Unsubscribe] *)

Lemma unsubscribe_enabled tr s i sl :
  Reach tr s → slots s !! i = Some sl → col sl = ColUnsubscribe →
  ∃ s', step s (LUnsubscribe i None) = Some s' ∧
        count unsubscribes i (tr ++ [LUnsubscribe i None]) = 1.
Proof.
  intros Hr Hsl Hc. eexists. split.
  - unfold_step. rewrite Hsl, Hc. done.
  - pose proof (si_unsubscribed _ _ _ _ _ (Reach_slots_inv _ _ Hr _ _ Hsl)) as Hu.
    rewrite Hc in Hu. rewrite count_snoc, Hu. simpl.
    by rewrite bool_decide_eq_true_2.
Qed.

Lemma collector_finishes tr s i sl :
  Reach tr s → slots s !! i = Some sl → col sl ≠ ColIdle →
  ∃ tr' s', run s tr' = Some s' ∧ count unsubscribes i (tr ++ tr') = 1.
Proof.
  intros Hr Hsl Hc.
  pose proof (si_unsubscribed _ _ _ _ _ (Reach_slots_inv _ _ Hr _ _ Hsl)) as Hu.
  pose proof (lookup_lt_Some _ _ _ Hsl) as Hi.
  destruct (col sl) as [| |b| | |] eqn:E; [done| | | | |].
  - assert (step s (LTimeout i) = Some (set_slot i (set_col ColUnsubscribe sl) s))
      as Hs by (unfold_step; by rewrite Hsl, E).
    assert (Reach (tr ++ [LTimeout i]) (set_slot i (set_col ColUnsubscribe sl) s))
      as Hr' by eauto using Reach_app, run_one.
    destruct (unsubscribe_enabled _ _ i (set_col ColUnsubscribe sl) Hr')
      as (s' & Hs' & Hcount); [simpl; by apply list_lookup_insert_eq|done|].
    exists [LTimeout i; LUnsubscribe i None], s'. split.
    + eauto using run_two.
    + by rewrite <-Hcount, <-app_assoc.
  - destruct (forward_enabled _ _ _ _ _ Hr Hsl E) as [(s1 & Hs & _ & _ & _ & Hsl1) _].
    assert (Reach (tr ++ [LForward i]) s1)
      as Hr' by eauto using Reach_app, run_one.
    destruct (unsubscribe_enabled _ _ i (set_col ColUnsubscribe sl) Hr')
      as (s' & Hs' & Hcount); [rewrite Hsl1; by apply list_lookup_insert_eq|done|].
    exists [LForward i; LUnsubscribe i None], s'. split.
    + eauto using run_two.
    + by rewrite <-Hcount, <-app_assoc.
  - destruct (unsubscribe_enabled _ _ _ _ Hr Hsl E) as (s' & Hs' & Hcount).
    exists [LUnsubscribe i None], s'. eauto using run_one.
  - exists [], s. by rewrite app_nil_r.
  - exists [], s. by rewrite app_nil_r.
Qed.

(** *** Publishing comes after subscribing *)

Lemma publisher_subscribed tr s i sl :
  Reach tr s → slots s !! i = Some sl → pub sl ≠ PubIdle →
  LSubscribe i None ∈ tr ∧ ∃ m, recipients !! i = Some (Mqtt m).
Proof.
  intros Hr Hsl Hp. pose proof (Reach_wf _ _ Hr) as Hwf.
  pose proof (Reach_slots_inv _ _ Hr _ _ Hsl) as Hinv.
  assert (col sl ≠ ColIdle) as Hc by (by rewrite <-(wf_pair _ _ Hwf _ _ Hsl)).
  split.
  - pose proof (si_subscribed _ _ _ _ _ Hinv) as Hs.
    destruct (count_pos_elem_of subscribes_ok i tr) as (l & Hl & Hcl).
    { rewrite Hs. destruct (col sl); simpl; done || lia. }
    by destruct l as [| | ? [?|] | | | | | | | | | | | | |]; simplify_eq/=.
  - pose proof (lookup_lt_Some _ _ _ Hsl) as Hi.
    rewrite (wf_length _ _ Hwf) in Hi.
    destruct (lookup_lt_is_Some_2 recipients i Hi) as [[m|descr] Hrec]; [eauto|].
    destruct (wf_foreign _ _ Hwf _ _ Hsl) as [? _]; [by rewrite Hrec|done].
Qed.

End Marshalled.

(** * The claims about [Send] *)

Lemma sum_tasks_left_done (l : list Slot) :
  (∀ i sl, l !! i = Some sl → pub sl = PubDone ∧ col sl = ColDone) →
  sum_list_with tasks_left l = 0.
Proof.
  induction l as [|a l IH]; intros Hl; simpl; [done|].
  destruct (Hl 0 a eq_refl) as [Ha Hb]. unfold tasks_left at 1.
  rewrite Ha, Hb, IH; [done|]. intros i sl Hi. apply (Hl (S i) sl Hi).
Qed.

Lemma aggregate_cases (errs : list Error) (resps : list bytes) :
  (∃ b, resps = [b] ∧ aggregate errs resps = (Some b, None)) ∨
  (2 ≤ length resps ∧
   ∃ m, aggregate errs resps = (None, Some (errors_New ErrWrongBehavior m))) ∨
  (resps = [] ∧ errs ≠ [] ∧
   ∃ m, aggregate errs resps = (None, Some (errors_New ErrFailedOperation m))) ∨
  (resps = [] ∧ errs = [] ∧
   ∃ m, aggregate errs resps = (None, Some (errors_New ErrWrongBehavior m))).
Proof.
  destruct resps as [|b [|b' resps]].
  - destruct errs as [|e errs].
    + right. right. right. split_and!; [done..|]. by eexists.
    + right. right. left. split_and!; [done..|]. by eexists.
  - left. exists b. done.
  - right. left. split; [simpl; lia|]. by eexists.
Qed.

(** C1. Once every goroutine of every recipient is done, [wg.Wait()]
    returns and [Send] returns one outcome, which the two buffers decide:
    one response collected gives that payload and a nil error, whatever
    errors were recorded; two or more give a [ErrWrongBehavior] error; none,
    with an error recorded, gives a [ErrFailedOperation] error; none and no
    error gives a [ErrWrongBehavior] error.  The outcome is a payload or an
    error, never both. *)
Theorem Send_aggregates tr s :
  Reach tr s → main s = MWait →
  (∀ i sl, slots s !! i = Some sl → pub sl = PubDone ∧ col sl = ColDone) →
  ∃ s1 s2 r,
    step s LJoin = Some s1 ∧ step s1 LReturn = Some s2 ∧ main s2 = MReturned r ∧
    ((∃ b, chresp s = [b] ∧ r = (Some b, None)) ∨
     (2 ≤ length (chresp s) ∧ ∃ m, r = (None, Some (errors_New ErrWrongBehavior m))) ∨
     (chresp s = [] ∧ cherr s ≠ [] ∧
      ∃ m, r = (None, Some (errors_New ErrFailedOperation m))) ∨
     (chresp s = [] ∧ cherr s = [] ∧
      ∃ m, r = (None, Some (errors_New ErrWrongBehavior m)))).
Proof.
  intros Hr Hm Hdone.
  destruct (Reach_marshalled_main _ _ Hr) as [d Hd]; [by rewrite Hm..|].
  pose proof (Reach_wg_inv d Hd _ _ Hr) as Hwg. unfold wg_inv in Hwg.
  rewrite Hm, (sum_tasks_left_done _ Hdone) in Hwg.
  exists (set_main MAggregate s). eexists. exists (aggregate (cherr s) (chresp s)).
  split_and!.
  - unfold_step. rewrite Hm, Hwg. done.
  - unfold_step. simpl. done.
  - done.
  - destruct (aggregate_cases (cherr s) (chresp s))
      as [(b & ? & ->)|[(? & m & ->)|[(? & ? & m & ->)|(? & ? & m & ->)]]]; eauto 10.
Qed.

(** What [Reach_failed] leaves to check when the marshalling fails. *)
Ltac failed_run E Hr :=
  destruct (Reach_failed _ _ _ E Hr) as [[-> ->]|[-> ->]]; simpl in *;
  repeat match goal with
    | H : replicate _ _ !! _ = Some _ |- _ =>
        apply lookup_replicate in H; destruct H as [-> _]; simpl in *
    end.

(** C10. In a call of [Send] each recipient puts at most one payload into
    [chresp], the first one its callback was handed, and at most one error
    into [cherr]; so neither buffer, made for as many entries as there are
    recipients, is ever sent more, and each of the three sends, by the caller
    at lines 114 and 126, by the publisher at line 141 and by the collector
    at line 162, finds room. *)
Theorem Send_buffers_suffice tr s :
  Reach tr s →
  (∀ i, count forwards i tr ≤ 1 ∧ count records i tr ≤ 1) ∧
  length (cherr s) ≤ nb ∧ length (chresp s) ≤ nb ∧
  (∀ i e, main s = MSendErr i e →
     ∃ s', step s (LRecord i) = Some s' ∧ cherr s' = cherr s ++ [e]) ∧
  (∀ i sl e, slots s !! i = Some sl → pub sl = PubSendErr e →
     ∃ s', step s (LPubRecord i) = Some s' ∧ cherr s' = cherr s ++ [e]) ∧
  (∀ i sl b, slots s !! i = Some sl → col sl = ColSendResp b →
     head (delivered i tr) = Some b ∧
     ∃ s', step s (LForward i) = Some s' ∧ chresp s' = chresp s ++ [b]).
Proof.
  intros Hr. destruct (MarshalBinary p) as [d|err] eqn:E.
  - split_and!.
    + eauto using count_forwards_le, count_records_le.
    + eauto using cherr_le.
    + eauto using chresp_le.
    + intros i e Hm.
      destruct (record_enabled d E _ _ _ _ Hr Hm) as (s' & ? & ? & _). eauto.
    + intros i sl e Hsl Hp.
      destruct (pub_record_enabled d E _ _ _ _ _ Hr Hsl Hp) as (s' & ? & ? & _).
      eauto.
    + intros i sl b Hsl Hc.
      destruct (forward_enabled d E _ _ _ _ _ Hr Hsl Hc) as [(s' & ? & ? & _) ?].
      eauto.
  - split_and!; intros; failed_run E Hr; simplify_eq/=;
      try (split; lia); try lia; try done.
Qed.

(** C7. [p.MarshalBinary()] is called once, as the first thing [Send] does.
    When it fails, [Send] returns an [ErrInvalidStructure] error that wraps the
    failure on the spot: the run ends there, and no step of it calls the
    transport, be it to subscribe, to publish or to unsubscribe. *)
Theorem Send_marshals_once tr s :
  Reach tr s →
  marshals tr ≤ 1 ∧
  (tr ≠ [] → ∃ tr', tr = LMarshal :: tr' ∧ marshals tr' = 0) ∧
  (∀ err, MarshalBinary p = inr err →
     step init LMarshal =
       Some (set_main (MReturned (None, Some (errors_New ErrInvalidStructure err))) init) ∧
     (tr ≠ [] →
      tr = [LMarshal] ∧
      main s = MReturned (None, Some (errors_New ErrInvalidStructure err)) ∧
      (∀ l, step s l = None)) ∧
     (∀ l s0, l ∈ tr → call s0 l = None) ∧
     (∀ i, count subscribes i tr = 0 ∧ count publishes i tr = 0 ∧
           count unsubscribes i tr = 0)).
Proof.
  intros Hr. destruct (MarshalBinary p) as [d|err] eqn:E.
  - pose proof (Reach_main_inv d E _ _ Hr) as [Hf Hm _ _]. split_and!.
    + destruct (main s); lia.
    + intros Hne. destruct tr as [|l tr']; [done|]. clear Hne.
      destruct (Reach_split [] l tr' s Hr) as (s1 & s2 & Hr1 & Hs & _).
      unfold_Reach. simpl in Hr1. simplify_eq.
      assert (l = LMarshal) as ->.
      { destruct l; step_inv Hs; try done.
        all: repeat match goal with
               | H : replicate _ _ !! _ = Some _ |- _ =>
                   apply lookup_replicate in H; destruct H as [-> _]
               end; simplify_eq/=. }
      exists tr'. split; [done|]. simpl in Hm. destruct (main s); done || lia.
    + intros err' ?. simplify_eq.
  - split_and!.
    + failed_run E Hr; lia.
    + failed_run E Hr; [done|]. intros _. by exists [].
    + intros err' ?. simplify_eq. split_and!.
      * unfold_step. simpl. by rewrite E.
      * failed_run E Hr; [done|]. intros _. split_and!; [done..|].
        intros l. destruct l; simpl; try done.
        all: unfold nb; destruct (replicate _ _ !! _) as [sl|] eqn:Hsl;
          [apply lookup_replicate in Hsl; destruct Hsl as [-> _]|];
          simpl; repeat case_match; done.
      * failed_run E Hr; intros l s0 Hl.
        -- by apply elem_of_nil in Hl.
        -- apply list_elem_of_singleton in Hl. by subst.
      * failed_run E Hr; done.
Qed.

(** C2, what the code does.  When a recipient is skipped, for want of the
    [MqttRecipient] capability or because its subscription failed, the caller
    goes on without the two [wg.Done()] the counter was set up for: [wg.Wait()]
    never returns, and [Send] neither aggregates nor returns. *)
Lemma Send_blocks_after_skip tr s i :
  Reach tr s → (LSkip i ∈ tr ∨ ∃ e, LSubscribe i (Some e) ∈ tr) →
  (∀ tr' s', run s tr' = Some s' → main s' ≠ MAggregate ∧ ∀ r, main s' ≠ MReturned r).
Proof.
  intros Hr Hl tr' s' Hr'.
  assert (∃ l, l ∈ tr ∧ l ≠ LMarshal ∧
               (skips l = Some i ∨ subscribes_ko l = Some i)) as (l & Hin & Hne & Hc).
  { destruct Hl as [?|[e ?]]; eexists; split_and!; eauto. }
  destruct (Reach_marshalled _ _ _ Hr Hin Hne) as [d Hd].
  apply (skipped_blocks d Hd (tr ++ tr') s' i); [eauto using Reach_app|].
  rewrite !count_app.
  destruct Hc as [Hc|Hc]; pose proof (count_elem_of _ _ _ _ Hin Hc); lia.
Qed.

(** C5. The publication to a recipient is made by a goroutine that exists
    only once [a.Subscribe] for that recipient has returned without error: in
    every run the [Publish] on its [TopicUp()] comes after the completed
    [Subscribe] on its [TopicDown()].  When the subscription fails, the caller
    records an [ErrFailedOperation] error in [cherr] and nothing is ever
    published for that recipient. *)
Theorem Send_subscribes_before_publishing tr s i :
  Reach tr s →
  (∀ pre t post, tr = pre ++ LPublish i t :: post →
     LSubscribe i None ∈ pre ∧
     ∃ m, recipients !! i = Some (Mqtt m) ∧
          (∀ s0, call s0 (LSubscribe i None) = Some (Subscribe (TopicDown m))) ∧
          (∀ s0, call s0 (LPublish i t) = Some (Publish (TopicUp m) (data s0)))) ∧
  (∀ pre e post, tr = pre ++ LSubscribe i (Some e) :: post →
     count publishes i tr = 0 ∧
     ∃ s1 s2 s3,
       Reach pre s1 ∧ step s1 (LSubscribe i (Some e)) = Some s2 ∧
       main s2 = MSendErr i (errors_New ErrFailedOperation
                               "Unable to subscribe to down topic") ∧
       step s2 (LRecord i) = Some s3 ∧
       cherr s3 = cherr s2 ++ [errors_New ErrFailedOperation
                                 "Unable to subscribe to down topic"]).
Proof.
  intros Hr. split.
  - intros pre t post ->.
    destruct (Reach_marshalled _ _ (LPublish i t) Hr) as [d Hd];
      [apply elem_of_app; right; left|done|].
    destruct (Reach_split _ _ _ _ Hr) as (s1 & s2 & Hr1 & Hs & _).
    assert (∃ sl, slots s1 !! i = Some sl ∧ pub sl = PubPublish) as (sl & Hsl & Hp).
    { clear -Hs. step_inv Hs; eauto. }
    destruct (publisher_subscribed d Hd _ _ _ _ Hr1 Hsl) as [Hin [m Hm]];
      [by rewrite Hp|].
    split; [done|]. exists m. split_and!; [done|..]; intros s0; simpl;
      by rewrite Hm.
  - intros pre e post ->.
    destruct (Reach_marshalled _ _ (LSubscribe i (Some e)) Hr) as [d Hd];
      [apply elem_of_app; right; left|done|].
    split.
    + assert (0 < count skips i (pre ++ LSubscribe i (Some e) :: post) +
                  count subscribes_ko i (pre ++ LSubscribe i (Some e) :: post)) as Hc.
      { rewrite !count_app. simpl. rewrite bool_decide_eq_true_2 by done. lia. }
      pose proof (skipped_in_range _ _ _ Hr Hc) as Hi.
      destruct (slot_of d Hd _ _ _ Hr Hi) as (sl & Hsl & Hinv).
      destruct (skipped_idle d Hd _ _ _ _ Hr Hsl Hc) as [Hp _].
      rewrite (si_published _ _ _ _ _ Hinv), Hp. done.
    + destruct (Reach_split _ _ _ _ Hr) as (s1 & s2 & Hr1 & Hs & _).
      assert (main s2 = MSendErr i (errors_New ErrFailedOperation
                                      "Unable to subscribe to down topic")) as Hm.
      { clear -Hs. by step_inv Hs. }
      assert (Reach (pre ++ [LSubscribe i (Some e)]) s2) as Hr2
        by eauto using Reach_app, run_one.
      destruct (record_enabled d Hd _ _ _ _ Hr2 Hm) as (s3 & ? & ? & _).
      exists s1, s2, s3. done.
Qed.

(** [a.Unsubscribe] for a recipient is called by its collector, in a
    deferred function, and by nothing else: never twice in a run; once when
    the collector is done, whichever way it left its wait; and a collector
    that exists is never kept from getting there. *)
Lemma unsubscribes_once_parts tr s i :
  Reach tr s →
  count unsubscribes i tr ≤ 1 ∧
  (∀ sl, slots s !! i = Some sl → col sl = ColDone → count unsubscribes i tr = 1) ∧
  (∀ sl, slots s !! i = Some sl → col sl ≠ ColIdle →
     ∃ tr' s', run s tr' = Some s' ∧ count unsubscribes i (tr ++ tr') = 1) ∧
  (LJoin ∈ tr → i < nb → count unsubscribes i tr = 1).
Proof.
  intros Hr. destruct (MarshalBinary p) as [d|err] eqn:E.
  - split_and!.
    + eauto using count_unsubscribes_le.
    + intros sl Hsl Hc.
      rewrite (si_unsubscribed _ _ _ _ _ (Reach_slots_inv d E _ _ Hr _ _ Hsl)), Hc.
      done.
    + eauto using collector_finishes.
    + intros Hj Hi.
      destruct (Reach_elem_of _ _ _ Hr Hj) as (pre & post & s1 & s2 & -> & Hr1 & Hs & _).
      assert (main s2 = MAggregate) as Hm by (clear -Hs; by step_inv Hs).
      assert (Reach (pre ++ [LJoin]) s2) as Hr2 by eauto using Reach_app, run_one.
      destruct (slot_of d E _ _ _ Hr2 Hi) as (sl & Hsl & Hinv).
      destruct (joined_all_done d E _ _ _ _ Hr2 (or_introl Hm) Hsl) as [_ Hc].
      pose proof (si_unsubscribed _ _ _ _ _ Hinv) as Hu. rewrite Hc in Hu.
      pose proof (count_unsubscribes_le d E _ _ i Hr) as Hle.
      rewrite cons_middle, app_assoc, count_app in Hle |- *.
      simpl in Hu. lia.
  - split_and!; intros; failed_run E Hr; simplify_eq/=; try lia; try done.
    + by apply elem_of_nil in H.
    + by apply list_elem_of_singleton in H.
Qed.

(** What [Send] does with a recipient that is no [MqttRecipient] (C3). *)
Lemma foreign_skipped tr s i descr :
  Reach tr s → recipients !! i = Some (Foreign descr) →
  (∀ l s0, l ∈ tr → index l = Some i → call s0 l = None) ∧
  count subscribes i tr = 0 ∧ count publishes i tr = 0 ∧
  count unsubscribes i tr = 0 ∧
  (main s = MLoop i →
     (∀ t, step s (LSubscribe i t) = None) ∧
     step s (LSkip i) =
       Some (set_main (MSendErr i (errors_New ErrInvalidStructure
                                     "Unable to interpret recipient as mqttRecipient")) s)) ∧
  (∀ e, main s = MSendErr i e →
     e = errors_New ErrInvalidStructure "Unable to interpret recipient as mqttRecipient" ∧
     ∃ s', step s (LRecord i) = Some s' ∧ cherr s' = cherr s ++ [e] ∧
           main s' = after recipients i).
Proof.
  intros Hr Hrec.
  assert (∀ l s0, l ∈ tr → index l = Some i → call s0 l = None) as Hcall.
  { intros l s0 _ Hl. destruct l; simplify_eq/=; try done; by rewrite Hrec. }
  assert (∀ c, (∀ l j, c l = Some j → index l = Some j ∧ ∃ t, l = LSubscribe j t
                        ∨ l = LPublish j t ∨ l = LUnsubscribe j t) →
               count c i tr = 0) as Hnone.
  { intros c Hc. apply count_none. intros l Hl Hcl.
    destruct (Hc _ _ Hcl) as [Hidx [t Hshape]].
    destruct (Reach_marshalled _ _ l Hr Hl) as [d Hd].
    { intros ->. done. }
    destruct (Reach_elem_of _ _ _ Hr Hl) as (pre & post & s1 & s2 & _ & Hr1 & Hs & _).
    pose proof (Reach_wf _ _ Hr1) as Hwf.
    destruct Hshape as [-> | [-> | ->]]; clear -Hs Hrec Hwf; step_inv Hs.
    all: match goal with
         | H : slots _ !! _ = Some _ |- _ =>
             destruct (wf_foreign _ _ Hwf _ _ H) as [? ?]; [by rewrite Hrec|];
             congruence
         end. }
  split_and!; [done|..].
  - apply Hnone. intros l j Hl. destruct l; simplify_eq/=. eauto.
  - apply Hnone. intros l j Hl. destruct l; simplify_eq/=. eauto.
  - apply Hnone. intros l j Hl. destruct l; simplify_eq/=. eauto.
  - intros Hm. unfold_step. rewrite Hm, Hrec. simpl.
    rewrite Nat.eqb_refl. done.
  - intros e Hm.
    destruct (senderr_inv _ _ Hr _ _ Hm) as [[_ ->]|[[m Hm'] _]];
      [|by rewrite Hrec in Hm'].
    split; [done|].
    destruct (Reach_marshalled_main _ _ Hr) as [d Hd]; [by rewrite Hm..|].
    destruct (record_enabled d Hd _ _ _ _ Hr Hm) as (s' & ? & ? & _ & ?). eauto.
Qed.

End SendFacts.

(** C3, as the code has it.  A recipient that is no [MqttRecipient] is never
    subscribed, published or unsubscribed for.  When the loop comes to it, the
    caller can only take the branch of line 111: it builds an
    [ErrInvalidStructure] error and sends it into [cherr], which has room,
    then goes on to the next recipient.  [ErrInvalidStructure] is also the
    kind of the error [Send] returns when the marshalling fails. *)
Theorem Send_skips_foreign_recipient p recipients tr s i descr :
  Reach p recipients tr s → recipients !! i = Some (Foreign descr) →
  (∀ l s0, l ∈ tr → index l = Some i → call recipients s0 l = None) ∧
  count subscribes i tr = 0 ∧ count publishes i tr = 0 ∧
  count unsubscribes i tr = 0 ∧
  (main s = MLoop i →
     (∀ t, step p recipients s (LSubscribe i t) = None) ∧
     ∃ e s', step p recipients s (LSkip i) = Some s' ∧ main s' = MSendErr i e ∧
             kind e = ErrInvalidStructure) ∧
  (∀ e, main s = MSendErr i e →
     kind e = ErrInvalidStructure ∧
     ∃ s', step p recipients s (LRecord i) = Some s' ∧
           cherr s' = cherr s ++ [e] ∧ main s' = after recipients i) ∧
  (∀ p' err tr' s' r,
     MarshalBinary p' = inr err → Reach p' recipients tr' s' →
     main s' = MReturned r → ∃ e', r = (None, Some e') ∧ kind e' = ErrInvalidStructure).
Proof.
  intros Hr Hrec.
  destruct (foreign_skipped _ _ _ _ _ _ Hr Hrec) as (H1 & H2 & H3 & H4 & H5 & H6).
  split_and!; try done.
  - intros Hm. destruct (H5 Hm) as [? Hs]. split; [done|].
    eexists _, _. split; [exact Hs|]. done.
  - intros e Hm. destruct (H6 e Hm) as [-> ?]. done.
  - intros p' err tr' s' r Herr Hr' Hm.
    destruct (Reach_failed _ _ _ _ _ Herr Hr') as [[_ ->]|[_ ->]];
      simpl in Hm; simplify_eq. eauto.
Qed.

(** * More about [Send] *)

Section SendMore.

Variable p : Packet.
Variable recipients : list Recipient.

Local Abbreviation nb := (nb recipients).
Local Abbreviation step := (step p recipients).
Local Abbreviation run := (run p recipients).
Local Abbreviation init := (init recipients).
Local Abbreviation Reach := (Reach p recipients).
Local Abbreviation wf := (wf recipients).

Ltac step_inv H :=
  unfold_step_in H;
  repeat (case_match; simplify_option_eq; try done);
  repeat match goal with
    | H : (_ =? _) = true |- _ => apply Nat.eqb_eq in H; subst
    end.

Ltac pc_cases :=
  repeat match goal with
    | H : context [after recipients ?i] |- _ =>
        let E := fresh in
        destruct (after_cases recipients i) as [[E ?]|[E ?]]; [try lia; eauto; fail| |];
        rewrite E in H; clear E
    | |- context [after recipients ?i] =>
        let E := fresh in
        destruct (after_cases recipients i) as [[E ?]|[E ?]]; [try lia; eauto; fail| |];
        rewrite E; clear E
    | H : context [first_pc recipients] |- _ =>
        let E := fresh in
        destruct (first_pc_cases recipients) as [[E ?]|[E ?]]; rewrite E in H; clear E
    | |- context [first_pc recipients] =>
        let E := fresh in
        destruct (first_pc_cases recipients) as [[E ?]|[E ?]]; rewrite E; clear E
    end.

Lemma own_steps_app a b : own_steps (a ++ b) = own_steps a + own_steps b.
Proof. induction a as [|l a IH]; simpl; [done|]. rewrite IH. lia. Qed.

Lemma steps_left_step s l s' :
  wf s → step s l = Some s' →
  steps_left nb s' + (if own l then 1 else 0) ≤ steps_left nb s.
Proof.
  intros [Hlen Hloop Hse Hfr Hfo Hpair] H. unfold steps_left.
  destruct l; step_inv H; simpl in *.
  all: pc_cases; repeat case_match; simplify_eq/=.
  all: try match goal with
         | H : slots _ !! _ = Some _ |- _ =>
             pose proof (Hfr _ _ H); pose proof (Hloop _ eq_refl)
         end.
  all: try match goal with
         | H : slots _ !! _ = Some _ |- context [ <[_ := ?y]> _ ] =>
             pose proof (sum_list_with_insert slot_left _ _ _ y H)
         end.
  all: try match goal with
         | H : main _ = ?pc |- _ => rewrite H in *
         end.
  all: unfold slot_left, idle in *; simpl in *;
       repeat match goal with
         | H : ?A → _ |- _ =>
             let HA := fresh in
             assert (HA : A) by lia; specialize (H HA); clear HA
         end; destruct_and?;
       repeat match goal with
         | H : pub _ = _ |- _ => rewrite H in *
         | H : col _ = _ |- _ => rewrite H in *
         end; simpl in *.
  all: lia.
Qed.

(** The steps [Send] has taken and those it can still take never add up to
    more than what its [nb] recipients allow for. *)
Lemma own_steps_left tr s : Reach tr s → own_steps tr + steps_left nb s ≤ 9 * nb + 3.
Proof.
  revert tr s. apply (Reach_induction p recipients).
  - unfold steps_left. simpl. rewrite sum_list_with_replicate.
    change (slot_left idle_slot) with 7. lia.
  - intros tr s l s' Hr IH Hs.
    pose proof (steps_left_step _ _ _ (Reach_wf _ _ _ _ Hr) Hs).
    rewrite own_steps_app. simpl. lia.
Qed.

Lemma step_data s l s' :
  step s l = Some s' →
  data s' = data s ∨ (l = LMarshal ∧ main s = MMarshal ∧ MarshalBinary p = inl (data s')).
Proof.
  intros H. destruct l; step_inv H; simpl; auto.
Qed.

Lemma step_main s l s' :
  step s l = Some s' →
  match l with
  | LMarshal | LSkip _ | LSubscribe _ _ | LRecord _ | LJoin | LReturn => True
  | _ => main s' = main s
  end.
Proof.
  intros H. destruct l; try done; step_inv H; simpl; auto.
Qed.

(** Before the marshalling nothing else can happen. *)
Lemma step_fresh s l s' :
  wf s → main s = MMarshal → step s l = Some s' → l = LMarshal.
Proof.
  intros [_ _ _ Hfr _ _] Hm H.
  destruct l; try done; step_inv H; try congruence.
  all: match goal with
       | H : slots _ !! _ = Some _ |- _ =>
           destruct (Hfr _ _ H) as [? ?]; [rewrite Hm; simpl; lia|congruence]
       end.
Qed.

Lemma data_marshalled d tr s :
  MarshalBinary p = inl d → Reach tr s → main s ≠ MMarshal → data s = d.
Proof.
  intros Hd. revert tr s.
  apply (Reach_induction p recipients (λ _ s, main s ≠ MMarshal → data s = d)); [done|].
  intros tr s l s' Hr IH Hs _.
  destruct (step_data _ _ _ Hs) as [E|(_ & _ & E)]; [|congruence].
  destruct (main s) eqn:Hm; try (rewrite E; by apply IH).
  pose proof (step_fresh _ _ _ (Reach_wf _ _ _ _ Hr) Hm Hs) as ->.
  unfold_step_in Hs. rewrite Hm, Hd in Hs. by simplify_eq.
Qed.

Lemma all_done_false (l : list Slot) :
  all_done l = false →
  ∃ i sl, l !! i = Some sl ∧ (pub sl ≠ PubDone ∨ col sl ≠ ColDone).
Proof.
  induction l as [|a l IH]; simpl; [done|]. intros H.
  apply andb_false_iff in H as [H|H].
  - exists 0, a. split; [done|].
    destruct (pub a); auto; destruct (col a); auto; done.
  - destruct (IH H) as (i & sl & ? & ?). by exists (S i), sl.
Qed.

Lemma all_done_true (l : list Slot) i sl :
  all_done l = true → l !! i = Some sl → pub sl = PubDone ∧ col sl = ColDone.
Proof.
  revert i. induction l as [|a l IH]; intros i Hl Hi; [done|].
  simpl in Hl. apply andb_prop in Hl as [Ha Hl].
  destruct i as [|i]; simpl in Hi.
  - simplify_eq. by destruct (pub sl), (col sl).
  - eauto.
Qed.

Lemma sum_tasks_left_le (l : list Slot) : sum_list_with tasks_left l ≤ 2 * length l.
Proof.
  induction l as [|a l IH]; simpl; [lia|].
  unfold tasks_left at 1. destruct (pub a), (col a); lia.
Qed.

Section Progress.

Variable d : bytes.
Hypothesis Hd : MarshalBinary p = inl d.

(** A goroutine that has yet to call [wg.Done()] finds the counter above
    zero. *)
Lemma wg_pos tr s i sl :
  Reach tr s → slots s !! i = Some sl → pub sl = PubExit ∨ col sl = ColExit →
  (0 < wg s)%Z.
Proof.
  intros Hr Hsl Hpc.
  pose proof (Reach_wg_inv _ _ _ Hd _ _ Hr) as Hwg.
  pose proof (Reach_wf _ _ _ _ Hr) as [_ _ _ Hfr _ _].
  pose proof (sum_list_with_lookup tasks_left _ _ _ Hsl) as Hle.
  assert (1 ≤ tasks_left sl) as H1.
  { unfold tasks_left. destruct Hpc as [->| ->]; [|destruct (pub sl)]; lia. }
  unfold wg_inv in Hwg. destruct (main s) eqn:Hm; try lia.
  destruct (Hfr _ _ Hsl) as [Hp Hc]; [simpl; lia|].
  destruct Hpc; congruence.
Qed.

Lemma pub_done_enabled tr s i sl :
  Reach tr s → slots s !! i = Some sl → pub sl = PubExit →
  ∃ s', step s (LPubDone i) = Some s' ∧ wg s' = (wg s - 1)%Z.
Proof.
  intros Hr Hsl Hpc. pose proof (wg_pos _ _ _ _ Hr Hsl (or_introl Hpc)) as Hw.
  unfold_step. rewrite Hsl, Hpc.
  destruct (0 <? wg s)%Z eqn:E; [|lia]. simpl. eauto.
Qed.

Lemma col_done_enabled tr s i sl :
  Reach tr s → slots s !! i = Some sl → col sl = ColExit →
  ∃ s', step s (LColDone i) = Some s' ∧ wg s' = (wg s - 1)%Z.
Proof.
  intros Hr Hsl Hpc. pose proof (wg_pos _ _ _ _ Hr Hsl (or_intror Hpc)) as Hw.
  unfold_step. rewrite Hsl, Hpc.
  destruct (0 <? wg s)%Z eqn:E; [|lia]. simpl. eauto.
Qed.

(** A goroutine that is started and not over can take a step. *)
Lemma slot_enabled tr s i sl :
  Reach tr s → slots s !! i = Some sl →
  (pub sl ≠ PubIdle ∧ pub sl ≠ PubDone) ∨ (col sl ≠ ColIdle ∧ col sl ≠ ColDone) →
  ∃ l s', step s l = Some s' ∧ own l = true ∧ index l = Some i ∧
          subscribes l = None ∧ skips l = None.
Proof.
  intros Hr Hsl Hpc.
  assert (∀ l, (∃ s', step s l = Some s') → own l = true → index l = Some i →
               subscribes l = None → skips l = None →
               ∃ l s', step s l = Some s' ∧ own l = true ∧ index l = Some i ∧
                       subscribes l = None ∧ skips l = None) as Hex.
  { intros l [s' Hs] ????. by exists l, s'. }
  destruct Hpc as [[H1 H2]|[H1 H2]].
  - destruct (pub sl) eqn:Hp; try done.
    + apply (Hex (LPublish i None)); try done.
      unfold_step. rewrite Hsl, Hp. eauto.
    + apply (Hex (LPubRecord i)); try done.
      destruct (pub_record_enabled _ _ _ Hd _ _ _ _ _ Hr Hsl Hp) as (s' & ? & _). eauto.
    + apply (Hex (LPubDone i)); try done.
      destruct (pub_done_enabled _ _ _ _ Hr Hsl Hp) as (s' & ? & _). eauto.
  - destruct (col sl) eqn:Hc; try done.
    + apply (Hex (LTimeout i)); try done.
      unfold_step. rewrite Hsl, Hc. eauto.
    + apply (Hex (LForward i)); try done.
      destruct (forward_enabled _ _ _ Hd _ _ _ _ _ Hr Hsl Hc) as [(s' & ? & _) _]. eauto.
    + apply (Hex (LUnsubscribe i None)); try done.
      unfold_step. rewrite Hsl, Hc. eauto.
    + apply (Hex (LColDone i)); try done.
      destruct (col_done_enabled _ _ _ _ Hr Hsl Hc) as (s' & ? & _). eauto.
Qed.

(** At [wg.Wait()]: a goroutine can take a step, or the join can, or a
    recipient was passed over. *)
Lemma wait_cases tr s :
  Reach tr s → main s = MWait →
  (∃ l s', step s l = Some s' ∧ own l = true ∧ subscribes l = None ∧ skips l = None) ∨
  (∃ i, i < nb ∧ 0 < count skips i tr + count subscribes_ko i tr).
Proof.
  intros Hr Hm.
  pose proof (Reach_wf _ _ _ _ Hr) as [Hlen _ _ _ _ Hpair].
  destruct (all_done (slots s)) eqn:E.
  - left. exists LJoin. unfold_step. rewrite Hm.
    pose proof (Reach_wg_inv _ _ _ Hd _ _ Hr) as Hwg.
    unfold wg_inv in Hwg. rewrite Hm in Hwg.
    rewrite sum_tasks_left_done in Hwg by eauto using all_done_true.
    rewrite Hwg. simpl. eauto.
  - apply all_done_false in E as (i & sl & Hsl & Hnd).
    assert (idle sl ∨ (pub sl ≠ PubIdle ∧ pub sl ≠ PubDone) ∨
            (col sl ≠ ColIdle ∧ col sl ≠ ColDone)) as [[Hp Hc]|Hpc].
    { pose proof (Hpair _ _ Hsl) as Hiff. unfold idle.
      destruct (pub sl) eqn:Hp, (col sl) eqn:Hc;
        try (by left; split); try (by right; left); try (by right; right).
      - left. split; [done|]. by apply Hiff.
      - left. split; [|done]. by apply Hiff.
      - destruct Hnd; done. }
    + right. exists i.
      assert (i < nb) as Hi.
      { apply lookup_lt_Some in Hsl. unfold_nb. lia. }
      split; [done|].
      pose proof (Reach_slots_inv _ _ _ Hd _ _ Hr _ _ Hsl) as [Hsub _ _ _ _ Hvis _].
      rewrite Hm in Hvis. simpl in Hvis. rewrite bool_decide_eq_true_2 in Hvis by done.
      rewrite Hc in Hsub. simpl in Hsub. rewrite count_subscribes in Hvis. lia.
    + left. destruct (slot_enabled _ _ _ _ Hr Hsl Hpc) as (l & s' & ? & ? & ? & ? & ?).
      by exists l, s'.
Qed.

(** What [Send] can do next. *)
Lemma next_step tr s :
  Reach tr s →
  (∃ r, main s = MReturned r) ∨
  (∃ l s', step s l = Some s' ∧ own l = true ∧ subscribes_ko l = None ∧
           ∀ i, skips l = Some i → ∃ descr, recipients !! i = Some (Foreign descr)) ∨
  (main s = MWait ∧ ∃ i, i < nb ∧ 0 < count skips i tr + count subscribes_ko i tr).
Proof.
  intros Hr.
  pose proof (Reach_wf _ _ _ _ Hr) as [Hlen Hloop Hse _ _ _].
  destruct (main s) eqn:Hm.
  - right; left. exists LMarshal. unfold_step. rewrite Hm, Hd.
    eexists. split_and!; done.
  - (* the loop *)
    right; left. pose proof (Hloop _ eq_refl) as Hi.
    destruct (lookup_lt_is_Some_2 recipients i) as [r Hri]; [done|].
    destruct (lookup_lt_is_Some_2 (slots s) i) as [sl Hsl]; [unfold_nb; lia|].
    destruct r as [m|descr].
    + exists (LSubscribe i None). unfold_step. rewrite Hm, Hri, Hsl. simpl.
      rewrite Nat.eqb_refl. eexists. split_and!; try done.
    + exists (LSkip i). unfold_step. rewrite Hm, Hri. simpl.
      rewrite Nat.eqb_refl. eexists. split_and!; try done.
      intros j Hj. simplify_eq. eauto.
  - (* cherr <- err *)
    right; left. exists (LRecord i).
    destruct (record_enabled _ _ _ Hd _ _ _ _ Hr Hm) as (s' & Hs & _).
    exists s'. split_and!; done.
  - destruct (wait_cases _ _ Hr Hm) as [(l & s' & ? & ? & Hsub & Hsk)|?].
    + right; left. exists l, s'. split_and!; try done.
      * destruct l as [| | ? [?|]| | | | | | | | | | | | |]; done.
      * intros j Hj. congruence.
    + right; right. done.
  - right; left. exists LReturn. unfold_step. rewrite Hm. eexists. split_and!; done.
  - left. eauto.
Qed.

End Progress.

Lemma skip_foreign s i s' :
  step s (LSkip i) = Some s' → ∃ descr, recipients !! i = Some (Foreign descr).
Proof.
  intros H. unfold_step_in H.
  destruct (main s); try done.
  destruct (recipients !! i) as [[m|descr]|]; simpl in H; try done. eauto.
Qed.

Lemma skipped_elem_of i tr :
  0 < count skips i tr + count subscribes_ko i tr →
  LSkip i ∈ tr ∨ ∃ e, LSubscribe i (Some e) ∈ tr.
Proof.
  intros H.
  destruct (decide (0 < count skips i tr)) as [Hs|Hs].
  - left. apply count_pos_elem_of in Hs as (l & Hl & Hc).
    destruct l; simpl in Hc; by simplify_eq.
  - right. destruct (count_pos_elem_of subscribes_ko i tr) as (l & Hl & Hc); [lia|].
    destruct l as [| | ? [e|]| | | | | | | | | | | | |]; simpl in Hc; simplify_eq.
    by exists e.
Qed.

(** X1.  [Send] has no loop but the one over the recipients: whatever the
    transport answers and however the goroutines are scheduled, the caller and
    the [2 * nb] goroutines take at most [9 * nb + 3] steps between them, and
    each of their steps brings the end nearer.  (The deliveries of the
    transport are not steps of [Send].) *)
Theorem Send_takes_boundedly_many_steps tr s :
  Reach tr s →
  own_steps tr + steps_left nb s ≤ 9 * nb + 3 ∧
  (∀ l s', step s l = Some s' → own l = true → steps_left nb s' < steps_left nb s).
Proof.
  intros Hr. split; [by apply own_steps_left|].
  intros l s' Hs Ho.
  pose proof (steps_left_step _ _ _ (Reach_wf _ _ _ _ Hr) Hs) as H.
  rewrite Ho in H. lia.
Qed.

(** X2.  When neither the caller nor any goroutine of [Send] can take a step,
    either [Send] has returned, and then no recipient was passed over, or the
    caller sits in [wg.Wait()] and some recipient was passed over, for want of
    the [MqttRecipient] capability or because its subscription failed: there is
    no other way for [Send] to come to a halt. *)
Theorem Send_halts_returned_or_after_skip tr s :
  Reach tr s → (∀ l, own l = true → step s l = None) →
  ((∃ r, main s = MReturned r) ∧
   (∀ i, (LSkip i ∉ tr) ∧ (∀ e, LSubscribe i (Some e) ∉ tr))) ∨
  (main s = MWait ∧ ∃ i, i < nb ∧ (LSkip i ∈ tr ∨ ∃ e, LSubscribe i (Some e) ∈ tr)).
Proof.
  intros Hr Hstuck.
  assert (∀ r, main s = MReturned r →
               ∀ i, (LSkip i ∉ tr) ∧ (∀ e, LSubscribe i (Some e) ∉ tr)) as Hret.
  { intros r Hm i.
    assert (¬ (LSkip i ∈ tr ∨ ∃ e, LSubscribe i (Some e) ∈ tr)) as Hn.
    { intros Hsk.
      destruct (Send_blocks_after_skip _ _ _ _ _ Hr Hsk [] s eq_refl) as [_ Hnr].
      by apply (Hnr r). }
    split; [|intros e]; intros ?; apply Hn; eauto. }
  destruct (MarshalBinary p) as [d|err] eqn:Hd.
  - destruct (next_step d Hd _ _ Hr) as [[r Hm]|[(l & s' & Hs & Ho & _)|(Hm & i & Hi & Hc)]].
    + left. eauto.
    + rewrite (Hstuck l Ho) in Hs. done.
    + right. split; [done|]. exists i. split; [done|]. by apply skipped_elem_of.
  - left. destruct (Reach_failed _ _ _ _ _ Hd Hr) as [[-> ->]|[-> ->]].
    + specialize (Hstuck LMarshal eq_refl). unfold_step_in Hstuck. simpl in Hstuck.
      by rewrite Hd in Hstuck.
    + simpl. eauto.
Qed.

(** X3.  When every recipient is an [MqttRecipient] and no subscription has
    failed, [Send] can always go on to its [return]: there is a continuation,
    no longer than the steps that are left, at the end of which it has
    returned. *)
Theorem Send_can_return tr s :
  Reach tr s →
  (∀ r, r ∈ recipients → ∃ m, r = Mqtt m) →
  (∀ i e, LSubscribe i (Some e) ∉ tr) →
  ∃ tr' s' r, run s tr' = Some s' ∧ main s' = MReturned r ∧
              length tr' ≤ steps_left nb s.
Proof.
  intros Hr Hall Hok.
  destruct (MarshalBinary p) as [d|err] eqn:Hd.
  - assert (∀ n tr s, steps_left nb s ≤ n → Reach tr s →
              (∀ i e, LSubscribe i (Some e) ∉ tr) →
              ∃ tr' s' r, run s tr' = Some s' ∧ main s' = MReturned r ∧
                          length tr' ≤ steps_left nb s) as Hind; [|by eauto].
    clear tr s Hr Hok.
    induction n as [|n IH]; intros tr s Hn Hr Hok.
    all: destruct (next_step d Hd _ _ Hr)
           as [[r Hm]|[(l & s' & Hs & Ho & Hko & _)|(_ & i & _ & Hc)]];
         [ exists [], s, r; split_and!; [done|done|simpl; lia]
         | pose proof (steps_left_step _ _ _ (Reach_wf _ _ _ _ Hr) Hs) as Hlt;
           rewrite Ho in Hlt
         | exfalso; apply skipped_elem_of in Hc as [Hc|[e Hc]];
           [|by apply (Hok i e)];
           destruct (Reach_elem_of _ _ _ _ _ Hr Hc)
             as (? & ? & s1 & s2 & _ & _ & Hs & _);
           apply skip_foreign in Hs as [descr Hs];
           apply list_elem_of_lookup_2 in Hs;
           destruct (Hall _ Hs) as [m ?]; done ].
    { lia. }
    destruct (IH (tr ++ [l]) s') as (tr' & s'' & r & Hrun & Hm & Hlen).
    + lia.
    + eapply Reach_app; [done|]. by apply run_one.
    + intros i e [Hin|Hin]%elem_of_app; [by apply (Hok i e)|].
      apply list_elem_of_singleton in Hin. by subst.
    + exists (l :: tr'), s'', r. split_and!; [|done|simpl; lia].
      simpl. rewrite Hs. done.
  - destruct (Reach_failed _ _ _ _ _ Hd Hr) as [[-> ->]|[-> ->]].
    + exists [LMarshal]. eexists _, _. split_and!.
      * simpl. unfold_step. simpl. rewrite Hd. done.
      * done.
      * unfold steps_left. simpl. lia.
    + exists []. eexists _, _. split_and!; [done|done|simpl; lia].
Qed.

(** X4.  What a publisher goroutine hands to [a.Publish] is the result of
    [p.MarshalBinary()], and the topic is the [TopicUp()] of its recipient,
    which is an [MqttRecipient]. *)
Theorem Send_publishes_marshalled_packet tr s i t s' :
  Reach tr s → step s (LPublish i t) = Some s' →
  ∃ m d, recipients !! i = Some (Mqtt m) ∧ MarshalBinary p = inl d ∧
         call recipients s (LPublish i t) = Some (Publish (TopicUp m) d).
Proof.
  intros Hr Hs.
  assert (∃ sl, slots s !! i = Some sl ∧ pub sl = PubPublish) as (sl & Hsl & Hp).
  { unfold_step_in Hs. destruct (slots s !! i) as [sl|]; [|done].
    exists sl. split; [done|]. by destruct (pub sl). }
  pose proof (Reach_wf _ _ _ _ Hr) as [_ _ _ Hfr _ _].
  destruct (MarshalBinary p) as [d|err] eqn:Hd.
  - destruct (publisher_subscribed _ _ _ Hd _ _ _ _ Hr Hsl) as [_ [m Hm]]; [congruence|].
    exists m, d. split_and!; [done..|].
    assert (main s ≠ MMarshal) as Hnm.
    { intros E. destruct (Hfr _ _ Hsl) as [? _]; [rewrite E; simpl; lia|congruence]. }
    simpl. rewrite Hm. simpl. by rewrite (data_marshalled _ _ _ Hd Hr Hnm).
  - destruct (Reach_failed _ _ _ _ _ Hd Hr) as [[-> ->]|[-> ->]]; simpl in Hsl;
      apply lookup_replicate in Hsl as [-> _]; done.
Qed.

(** X5.  The counter of the [sync.WaitGroup] never goes below zero, so no
    [wg.Done()] panics: it stays between [0] and the [2 * nb] it was set to,
    and a goroutine that is about to call [wg.Done()] finds it above zero. *)
Theorem Send_counter_never_negative tr s :
  Reach tr s →
  (0 ≤ wg s ≤ 2 * Z.of_nat nb)%Z ∧
  (∀ i sl, slots s !! i = Some sl → pub sl = PubExit →
     ∃ s', step s (LPubDone i) = Some s' ∧ wg s' = (wg s - 1)%Z) ∧
  (∀ i sl, slots s !! i = Some sl → col sl = ColExit →
     ∃ s', step s (LColDone i) = Some s' ∧ wg s' = (wg s - 1)%Z).
Proof.
  intros Hr.
  destruct (MarshalBinary p) as [d|err] eqn:Hd.
  - split; [|split; intros i sl Hsl Hpc;
             [by eapply (pub_done_enabled d Hd)|by eapply (col_done_enabled d Hd)]].
    pose proof (Reach_wg_inv _ _ _ Hd _ _ Hr) as Hwg.
    pose proof (Reach_main_inv _ _ _ Hd _ _ Hr) as [Hfresh _ _ _].
    pose proof (Reach_wf _ _ _ _ Hr) as [Hlen _ _ _ _ _].
    pose proof (sum_tasks_left_le (slots s)) as Hle.
    unfold_nb. unfold wg_inv in Hwg.
    destruct (main s) eqn:Hm; try lia.
    rewrite (Hfresh eq_refl) in Hr. unfold_Reach. simpl in Hr. simplify_eq. simpl. lia.
  - destruct (Reach_failed _ _ _ _ _ Hd Hr) as [[-> ->]|[-> ->]]; simpl.
    all: split; [lia|split]; intros i sl Hsl Hpc;
         apply lookup_replicate in Hsl as [-> _]; done.
Qed.

Lemma step_chresp s l s' :
  step s l = Some s' →
  chresp s' = chresp s ∨
  (∃ i sl b, l = LForward i ∧ slots s !! i = Some sl ∧ col sl = ColSendResp b ∧
             chresp s' = chresp s ++ [b]) ∨
  (l = LMarshal ∧ chresp s' = []) ∨
  (l = LReturn ∧ chresp s' = tail (chresp s)).
Proof.
  intros H. destruct l; step_inv H; simpl; eauto 10.
Qed.

(** How a state in which [Send] has returned comes about. *)
Lemma step_returned s l s' r :
  step s l = Some s' → main s' = MReturned r →
  (l = LMarshal ∧ main s = MMarshal ∧
   ∃ err, MarshalBinary p = inr err ∧
          r = (None, Some (errors_New ErrInvalidStructure err))) ∨
  (l = LReturn ∧ main s = MAggregate ∧ r = aggregate (cherr s) (chresp s)) ∨
  (main s = MReturned r ∧ l ≠ LReturn ∧ l ≠ LMarshal).
Proof.
  intros H Hm. destruct l; step_inv H; simpl in *; simplify_eq; eauto 10.
  all: try (pc_cases; done).
  all: try (right; right; split_and!; done).
  all: try (unfold first_pc, after in *; case_match; done).
Qed.

Lemma count_two_le c i j tr : i ≠ j → count c i tr + count c j tr ≤ total c tr.
Proof.
  intros Hij. induction tr as [|l tr IH]; simpl; [lia|].
  destruct (c l) as [k|]; repeat case_bool_decide; simplify_eq; lia.
Qed.

Lemma head_app_Some {A} (l k : list A) x : head l = Some x → head (l ++ k) = Some x.
Proof. by destruct l. Qed.

Section Answers.

Variable d : bytes.
Hypothesis Hd : MarshalBinary p = inl d.

(** A goroutine exists for the recipients that are [MqttRecipient]s and whose
    subscription went through. *)
Lemma collector_subscribed tr s i sl :
  Reach tr s → slots s !! i = Some sl → col sl ≠ ColIdle →
  LSubscribe i None ∈ tr ∧ ∃ m, recipients !! i = Some (Mqtt m).
Proof.
  intros Hr Hsl Hc. apply (publisher_subscribed _ _ _ Hd _ _ _ _ Hr Hsl).
  pose proof (Reach_wf _ _ _ _ Hr) as [_ _ _ _ _ Hpair].
  intros Hp. by apply Hc, (Hpair _ _ Hsl).
Qed.

(** What sits in [chresp] is, for some recipient, the first payload that
    came in on its down topic. *)
Lemma chresp_origin tr s :
  Reach tr s → ∀ b, b ∈ chresp s →
  ∃ i, i < nb ∧ head (delivered i tr) = Some b ∧ count forwards i tr = 1.
Proof.
  revert tr s.
  apply (Reach_induction p recipients
           (λ tr s, ∀ b, b ∈ chresp s →
              ∃ i, i < nb ∧ head (delivered i tr) = Some b ∧ count forwards i tr = 1)).
  { intros b Hb. simpl in Hb. by apply elem_of_nil in Hb. }
  intros tr s l s' Hr IH Hs b Hb.
  assert (Reach (tr ++ [l]) s') as Hr'.
  { eapply Reach_app; [done|]. by apply run_one. }
  assert (b ∈ chresp s →
          ∃ i, i < nb ∧ head (delivered i (tr ++ [l])) = Some b ∧
               count forwards i (tr ++ [l]) = 1) as Hold.
  { intros Hin. destruct (IH b Hin) as (i & Hi & Hh & Hc). exists i. split_and!; [done| |].
    - rewrite delivered_app. by apply head_app_Some.
    - pose proof (count_forwards_le _ _ _ Hd _ _ i Hr') as Hle.
      rewrite count_app in *. lia. }
  destruct (step_chresp _ _ _ Hs)
    as [E|[(i & sl & b0 & -> & Hsl & Hc & E)|[[-> E]|[-> E]]]]; rewrite E in Hb.
  - auto.
  - apply elem_of_app in Hb as [Hb|Hb]; [auto|].
    apply list_elem_of_singleton in Hb as ->.
    destruct (forward_enabled _ _ _ Hd _ _ _ _ _ Hr Hsl Hc) as [_ Hh].
    exists i. split_and!.
    + pose proof (Reach_wf _ _ _ _ Hr) as [Hlen _ _ _ _ _].
      apply lookup_lt_Some in Hsl. unfold_nb. lia.
    + rewrite delivered_app. by apply head_app_Some.
    + pose proof (count_forwards_le _ _ _ Hd _ _ i Hr') as Hle.
      rewrite count_app in *. simpl in *. rewrite bool_decide_eq_true_2 in * by done. lia.
  - by apply elem_of_nil in Hb.
  - apply Hold. destruct (chresp s); [done|]. simpl in Hb. by right.
Qed.

(** A payload is returned when one recipient, and one only, has answered. *)
Lemma returned_payload tr s :
  Reach tr s → ∀ b e, main s = MReturned (Some b, e) →
  e = None ∧ total forwards tr = 1 ∧
  ∃ i, i < nb ∧ head (delivered i tr) = Some b ∧ count forwards i tr = 1.
Proof.
  revert tr s.
  apply (Reach_induction p recipients
           (λ tr s, ∀ b e, main s = MReturned (Some b, e) →
              e = None ∧ total forwards tr = 1 ∧
              ∃ i, i < nb ∧ head (delivered i tr) = Some b ∧ count forwards i tr = 1)).
  { intros b e Hm. done. }
  intros tr s l s' Hr IH Hs b e Hm.
  assert (Reach (tr ++ [l]) s') as Hr'.
  { eapply Reach_app; [done|]. by apply run_one. }
  assert (∀ i, i < nb ∧ head (delivered i tr) = Some b ∧ count forwards i tr = 1 →
               i < nb ∧ head (delivered i (tr ++ [l])) = Some b ∧
               count forwards i (tr ++ [l]) = 1) as Hold.
  { intros i (Hi & Hh & Hc). split_and!; [done| |].
    - rewrite delivered_app. by apply head_app_Some.
    - pose proof (count_forwards_le _ _ _ Hd _ _ i Hr') as Hle.
      rewrite count_app in *. lia. }
  destruct (step_returned _ _ _ _ Hs Hm)
    as [(_ & _ & err & Herr & _)|[(-> & Hagg & Hres)|(Hret & Hl1 & Hl2)]].
  - congruence.
  - pose proof (Reach_main_inv _ _ _ Hd _ _ Hr) as [_ _ _ Hresp].
    rewrite Hagg in Hresp.
    destruct (aggregate_cases (cherr s) (chresp s))
      as [(b' & Hb & Ha)|[(_ & m & Ha)|[(_ & _ & m & Ha)|(_ & _ & m & Ha)]]];
      rewrite Ha in Hres; simplify_eq.
    split; [done|]. rewrite total_app. simpl.
    rewrite Hb in Hresp. simpl in Hresp. split; [lia|].
    destruct (chresp_origin _ _ Hr b') as (i & Hi); [rewrite Hb; by left|].
    exists i. by apply Hold.
  - destruct (IH _ _ Hret) as (-> & Ht & i & Hi).
    split; [done|]. split; [|exists i; by apply Hold].
    rewrite total_app. simpl.
    destruct (forwards l) as [j|] eqn:Hf; [|lia].
    destruct l; simpl in Hf; simplify_eq.
    exfalso. unfold_step_in Hs.
    destruct (slots s !! j) as [sl|] eqn:Hsl; [|done].
    destruct (joined_all_done _ _ _ Hd _ _ _ _ Hr (or_intror (ex_intro _ _ Hret)) Hsl)
      as [_ Hc].
    rewrite Hc in Hs. done.
Qed.

End Answers.

(** Where a returned outcome comes from. *)
Lemma returned_origin tr s r :
  Reach tr s → main s = MReturned r →
  (∃ err, MarshalBinary p = inr err ∧
          r = (None, Some (errors_New ErrInvalidStructure err))) ∨
  (∃ d errs resps, MarshalBinary p = inl d ∧ r = aggregate errs resps).
Proof.
  revert tr s.
  apply (Reach_induction p recipients
           (λ tr s, main s = MReturned r →
              (∃ err, MarshalBinary p = inr err ∧
                      r = (None, Some (errors_New ErrInvalidStructure err))) ∨
              (∃ d errs resps, MarshalBinary p = inl d ∧ r = aggregate errs resps))).
  { done. }
  intros tr s l s' Hr IH Hs Hm.
  destruct (step_returned _ _ _ _ Hs Hm)
    as [(_ & _ & err & Herr & ->)|[(-> & Hagg & Hres)|(Hret & _)]]; [by eauto| |by auto].
  right. destruct (Reach_marshalled_main _ _ _ _ Hr) as [d Hd]; [congruence..|].
  eauto.
Qed.

(** X6.  When [Send] returns a payload, it returns no error with it; one
    recipient and one only has answered before its two seconds were over, it
    is an [MqttRecipient], and the payload is the first that came in on its
    down topic. *)
Theorem Send_returns_the_one_answer tr s b e :
  Reach tr s → main s = MReturned (Some b, e) →
  e = None ∧
  ∃ i m, recipients !! i = Some (Mqtt m) ∧ head (delivered i tr) = Some b ∧
         LForward i ∈ tr ∧ ∀ j, j ≠ i → LForward j ∉ tr.
Proof.
  intros Hr Hm.
  destruct (returned_origin _ _ _ Hr Hm) as [(err & _ & ?)|(d & _ & _ & Hd & _)]; [done|].
  destruct (returned_payload d Hd _ _ Hr _ _ Hm) as (-> & Ht & i & Hi & Hh & Hc).
  split; [done|].
  destruct (slot_of _ _ _ Hd _ _ _ Hr Hi) as (sl & Hsl & [_ _ _ Hfw _ _ _]).
  destruct (collector_subscribed d Hd _ _ _ _ Hr Hsl) as [_ [m Hrm]].
  { intros E. rewrite E in Hfw. simpl in Hfw. lia. }
  exists i, m. split_and!; [done|done| |].
  - destruct (count_pos_elem_of forwards i tr) as (l & Hl & Hf); [lia|].
    destruct l; simpl in Hf; by simplify_eq.
  - intros j Hj Hin.
    pose proof (count_elem_of forwards j tr _ Hin eq_refl).
    pose proof (count_two_le forwards i j tr). lia.
Qed.

Lemma aggregate_exact (errs : list Error) (resps : list bytes) :
  (∃ b, resps = [b] ∧ aggregate errs resps = (Some b, None)) ∨
  (2 ≤ length resps ∧
   aggregate errs resps =
     (None, Some (errors_New ErrWrongBehavior "Received too many positive answers"))) ∨
  (resps = [] ∧ errs ≠ [] ∧
   aggregate errs resps =
     (None, Some (errors_New ErrFailedOperation
        "No positive response from recipients but got unexpected answers"))) ∨
  (resps = [] ∧ errs = [] ∧
   aggregate errs resps =
     (None, Some (errors_New ErrWrongBehavior "No recipient gave a positive answer"))).
Proof.
  destruct resps as [|b [|b' resps]].
  - destruct errs as [|e errs].
    + right. right. right. done.
    + right. right. left. done.
  - left. exists b. done.
  - right. left. split; [simpl; lia|]. done.
Qed.

(** Who sends into [cherr]. *)
Lemma step_cherr s l s' :
  step s l = Some s' →
  cherr s' = cherr s ∨ l = LMarshal ∨
  (∃ i e, l = LRecord i ∧ main s = MSendErr i e) ∨
  (∃ i sl e, l = LPubRecord i ∧ slots s !! i = Some sl ∧ pub sl = PubSendErr e).
Proof.
  intros H. destruct l; step_inv H; simpl; eauto 10.
Qed.

Section Outcome.

Variable d : bytes.
Hypothesis Hd : MarshalBinary p = inl d.

(** Once [Send] has returned, [cherr] is as it was when lines 176-192 looked
    at it, and no collector forwards any more: the outcome is the reduction
    of what [cherr] holds and of as many answers as were forwarded. *)
Lemma returned_from r tr s :
  Reach tr s → main s = MReturned r →
  ∃ resps, r = aggregate (cherr s) resps ∧ length resps = total forwards tr.
Proof.
  revert tr s.
  apply (Reach_induction p recipients
           (λ tr s, main s = MReturned r →
              ∃ resps, r = aggregate (cherr s) resps ∧
                       length resps = total forwards tr)).
  { done. }
  intros tr s l s' Hr IH Hs Hm.
  destruct (step_returned _ _ _ _ Hs Hm)
    as [(_ & _ & err & Herr & _)|[(-> & Hagg & Hres)|(Hret & Hl1 & Hl2)]].
  - congruence.
  - pose proof (Reach_main_inv _ _ _ Hd _ _ Hr) as [_ _ _ Hresp].
    rewrite Hagg in Hresp.
    exists (chresp s). rewrite total_app. simpl. split; [|lia].
    unfold_step_in Hs. rewrite Hagg in Hs. simplify_eq. done.
  - destruct (IH Hret) as (resps & Hres & Hlen).
    assert (∀ j sl, slots s !! j = Some sl → pub sl = PubDone ∧ col sl = ColDone) as Hdone.
    { intros j sl Hsl.
      apply (joined_all_done _ _ _ Hd _ _ _ _ Hr (or_intror (ex_intro _ _ Hret)) Hsl). }
    exists resps. split.
    + destruct (step_cherr _ _ _ Hs)
        as [->|[->|[(i & e & _ & Hse)|(i & sl & e & _ & Hsl & Hp)]]]; [done|done| |].
      * congruence.
      * destruct (Hdone _ _ Hsl) as [Hp' _]. congruence.
    + rewrite total_app. simpl.
      destruct (forwards l) as [j|] eqn:Hf; [|lia].
      destruct l; simpl in Hf; simplify_eq.
      exfalso. unfold_step_in Hs.
      destruct (slots s !! j) as [sl|] eqn:Hsl; [|done].
      destruct (Hdone _ _ Hsl) as [_ Hc]. rewrite Hc in Hs. done.
Qed.

End Outcome.

(** X7.  [Send] returns a payload or an error, never both and never neither.
    The error is of kind [ErrInvalidStructure] exactly when the marshalling
    of the packet failed, and it then wraps that failure.  Otherwise it is one
    of the three errors of lines 180-190, picked by the number of answers that
    were forwarded and by whether [cherr] is empty: the errors gathered in
    [cherr] are counted, none of them is handed to the caller. *)
Theorem Send_returns_payload_or_error tr s r :
  Reach tr s → main s = MReturned r →
  (∃ b, r = (Some b, None)) ∨
  (∃ e, r = (None, Some e) ∧
        (kind e = ErrInvalidStructure ↔ ∃ err, MarshalBinary p = inr err) ∧
        (∀ err, MarshalBinary p = inr err → e = errors_New ErrInvalidStructure err) ∧
        (∀ d, MarshalBinary p = inl d →
           (2 ≤ total forwards tr ∧
            e = errors_New ErrWrongBehavior "Received too many positive answers") ∨
           (total forwards tr = 0 ∧ cherr s ≠ [] ∧
            e = errors_New ErrFailedOperation
                  "No positive response from recipients but got unexpected answers") ∨
           (total forwards tr = 0 ∧ cherr s = [] ∧
            e = errors_New ErrWrongBehavior "No recipient gave a positive answer"))).
Proof.
  intros Hr Hm.
  destruct (MarshalBinary p) as [d|err] eqn:Hd.
  - destruct (returned_from d Hd _ _ _ Hr Hm) as (resps & -> & Hlen).
    rewrite <- Hlen.
    destruct (aggregate_exact (cherr s) resps)
      as [(b' & Hb & Ha)|[(H2 & Ha)|[(Hb & He & Ha)|(Hb & He & Ha)]]];
      rewrite Ha; [left; eauto|right..].
    all: eexists; split; [done|]; simpl; split_and!; try done.
    all: try (split; [done|intros [err ?]; congruence]).
    all: intros d' _; try rewrite Hb; simpl; auto.
  - destruct (Reach_failed _ _ _ _ _ Hd Hr) as [[-> ->]|[-> ->]];
      simpl in Hm; simplify_eq.
    right. eexists. split; [done|]. simpl. split_and!.
    + split; eauto.
    + intros err' ?. congruence.
    + intros d' ?. congruence.
Qed.

(** X8.  The loop takes up the recipients in the order of the list, one after
    the other and each of them once: the type assertions and subscriptions of
    a run are those for recipients [0], [1], ... up to where the loop is. *)
Theorem Send_visits_recipients_in_order d tr s :
  MarshalBinary p = inl d → Reach tr s →
  omap visits tr = seq 0 (taken_up nb (main s)).
Proof.
  intros Hd. revert tr s.
  apply (Reach_induction p recipients
           (λ tr s, omap visits tr = seq 0 (taken_up nb (main s)))); [done|].
  intros tr s l s' Hr IH Hs.
  pose proof (Reach_wf _ _ _ _ Hr) as [_ Hloop Hse _ _ _].
  rewrite omap_app, IH. clear IH.
  destruct l; step_inv Hs; simpl in *.
  all: pc_cases; simpl.
  all: repeat match goal with
         | H : main _ = _ |- _ => rewrite H in *; simpl in *
         end.
  all: rewrite ?app_nil_r; try done.
  all: try match goal with
         | H : S _ = nb |- _ => rewrite <- H
         | H : nb = 0 |- _ => rewrite H
         end.
  all: try change (0 :: seq 1 ?i) with (seq 0 (S i)).
  all: by rewrite ?seq_S.
Qed.

Lemma Reach_none_failed err tr s c i :
  MarshalBinary p = inr err → Reach tr s →
  (∀ j, c LMarshal ≠ Some j) → count c i tr = 0.
Proof.
  intros Herr Hr Hc. destruct (Reach_failed _ _ _ _ _ Herr Hr) as [[-> _]|[-> _]]; [done|].
  simpl. rewrite bool_decide_eq_false_2; [done|apply Hc].
Qed.

(** X9.  [a.Unsubscribe] is only ever called for a topic that [a.Subscribe]
    was called for before, with success: it comes after the completed
    subscription of the same recipient and names the same [TopicDown()].  A
    recipient whose subscription failed is never unsubscribed. *)
Theorem Send_unsubscribes_what_it_subscribed tr s i :
  Reach tr s →
  count unsubscribes i tr ≤ count subscribes_ok i tr ∧
  (∀ pre t post, tr = pre ++ LUnsubscribe i t :: post →
     LSubscribe i None ∈ pre ∧
     ∃ m, recipients !! i = Some (Mqtt m) ∧
          (∀ s0, call recipients s0 (LSubscribe i None) = Some (Subscribe (TopicDown m))) ∧
          (∀ s0, call recipients s0 (LUnsubscribe i t) = Some (Unsubscribe (TopicDown m)))) ∧
  (∀ e, LSubscribe i (Some e) ∈ tr → count unsubscribes i tr = 0).
Proof.
  intros Hr.
  destruct (MarshalBinary p) as [d|err] eqn:Hd.
  - split_and!.
    + destruct (decide (i < nb)) as [Hi|Hi].
      * destruct (slot_of _ _ _ Hd _ _ _ Hr Hi) as (sl & _ & [Hsub _ Hun _ _ _ _]).
        rewrite Hsub, Hun. destruct (col sl); simpl; lia.
      * rewrite (count_out_of_range p recipients unsubscribes tr s i); [lia| |done|lia].
        apply unsubscribes_index.
    + intros pre t post ->.
      destruct (Reach_split _ _ _ _ _ _ Hr) as (s1 & s2 & Hr1 & Hs & _).
      assert (∃ sl, slots s1 !! i = Some sl ∧ col sl = ColUnsubscribe) as (sl & Hsl & Hc).
      { unfold_step_in Hs. destruct (slots s1 !! i) as [sl|]; [|done].
        exists sl. split; [done|]. by destruct (col sl). }
      destruct (collector_subscribed d Hd _ _ _ _ Hr1 Hsl) as [Hin [m Hm]]; [congruence|].
      split; [done|]. exists m. split; [done|].
      split; intros s0; simpl; by rewrite Hm.
    + intros e Hin.
      pose proof (count_elem_of subscribes_ko i tr _ Hin eq_refl) as Hko.
      assert (i < nb) as Hi.
      { apply (skipped_in_range _ _ _ _ _ Hr). lia. }
      destruct (slot_of _ _ _ Hd _ _ _ Hr Hi) as (sl & Hsl & [_ _ Hun _ _ _ _]).
      destruct (skipped_idle _ _ _ Hd _ _ _ _ Hr Hsl) as [_ Hc]; [lia|].
      by rewrite Hun, Hc.
  - split_and!.
    + rewrite (Reach_none_failed _ _ _ unsubscribes i Hd Hr); [lia|done].
    + intros pre t post ->.
      destruct (Reach_failed _ _ _ _ _ Hd Hr) as [[E _]|[E _]].
      * by destruct pre.
      * destruct pre as [|? [|]]; simplify_eq.
    + intros _ _. by rewrite (Reach_none_failed _ _ _ unsubscribes i Hd Hr).
Qed.

Ltac slot_cases :=
  match goal with
  | H : <[?i := _]> _ !! ?i = Some _ |- _ =>
      rewrite list_lookup_insert_eq in H by eauto using lookup_lt_Some
  | H : <[?i0 := _]> _ !! ?i = Some _ |- _ =>
      destruct (decide (i0 = i)) as [->|?];
      [ rewrite list_lookup_insert_eq in H by eauto using lookup_lt_Some
      | rewrite list_lookup_insert_ne in H by done ]
  end.

(** What a step does to the callbacks parked on the [chdown] of recipient
    [i]: a delivery adds one, the receive of the collector takes the oldest. *)
Lemma step_chdown s l s' i sl' :
  step s l = Some s' → slots s' !! i = Some sl' →
  ∃ sl, slots s !! i = Some sl ∧
    (chdown sl' = chdown sl ++ delivered i [l] ∨
     (l = LRecv i ∧ col sl = ColSelect ∧ ∃ b, chdown sl = b :: chdown sl')).
Proof.
  intros H Hsl. destruct l; step_inv H; simpl in *.
  all: try slot_cases; simplify_eq/=.
  all: try (eexists; split; [done|]; rewrite ?app_nil_r; auto; fail).
  all: try (eexists; split; [done|]; simpl;
            repeat case_bool_decide; simplify_eq/=; rewrite ?app_nil_r; eauto; fail).
Qed.

Lemma step_late s l s' i sl :
  wf s → step s l = Some s' → slots s !! i = Some sl → late sl →
  ∃ sl', slots s' !! i = Some sl' ∧ late sl' ∧
         chdown sl' = chdown sl ++ delivered i [l].
Proof.
  intros [_ _ _ Hfr _ _] H Hsl [H1 H2]. unfold late.
  destruct l; step_inv H; simpl in *.
  all: try match goal with
         | H1 : slots ?s !! ?i = Some _, H2 : slots ?s !! ?j = Some _ |- _ =>
             tryif constr_eq i j then fail
             else (destruct (decide (i = j)); simplify_eq/=)
         end.
  all: rewrite ?list_lookup_insert_eq by eauto using lookup_lt_Some.
  all: rewrite ?list_lookup_insert_ne by done.
  all: try (eexists; split; [done|]; simpl; rewrite ?app_nil_r;
            repeat case_bool_decide; simplify_eq/=; rewrite ?app_nil_r;
            split_and!; congruence).
  all: try match goal with
         | H : slots _ !! _ = Some _, Hm : main _ = MLoop _ |- _ =>
             destruct (Hfr _ _ H) as [_ ?]; [try rewrite Hm; simpl; lia|done]
         end.
Qed.

Lemma run_late s tr s' i sl :
  wf s → run s tr = Some s' → slots s !! i = Some sl → late sl →
  ∃ sl', slots s' !! i = Some sl' ∧ late sl' ∧
         chdown sl' = chdown sl ++ delivered i tr.
Proof.
  revert s sl. induction tr as [|l tr IH]; intros s sl Hwf Hrun Hsl Hl.
  - simpl in Hrun. simplify_eq. exists sl. by rewrite app_nil_r.
  - simpl in Hrun. destruct (step s l) as [s1|] eqn:Hs; [|done]. simpl in Hrun.
    destruct (step_late _ _ _ _ _ Hwf Hs Hsl Hl) as (sl1 & Hsl1 & Hl1 & E1).
    destruct (IH s1 sl1) as (sl' & Hsl' & Hl' & E'); [by eapply wf_step|done..|].
    exists sl'. split_and!; [done..|].
    rewrite E', E1, <- app_assoc. f_equal.
    change (l :: tr) with ([l] ++ tr). by rewrite delivered_app.
Qed.

(** The collector takes at most one payload from [chdown], the first. *)
Lemma one_payload tr s :
  Reach tr s → ∀ i sl, slots s !! i = Some sl →
  delivered i tr = chdown sl ∨ ∃ b, delivered i tr = b :: chdown sl.
Proof.
  destruct (MarshalBinary p) as [d|err] eqn:Hd.
  - revert tr s.
    apply (Reach_induction p recipients
             (λ tr s, ∀ i sl, slots s !! i = Some sl →
                delivered i tr = chdown sl ∨ ∃ b, delivered i tr = b :: chdown sl)).
    { intros i sl [-> _]%lookup_replicate. by left. }
    intros tr s l s' Hr IH Hs i sl' Hsl'.
    destruct (step_chdown _ _ _ _ _ Hs Hsl') as (sl & Hsl & [E|(-> & Hc & b & E)]).
    + rewrite delivered_app, E.
      destruct (IH _ _ Hsl) as [->|[b ->]]; [by left|right]. by exists b.
    + right. exists b.
      pose proof (Reach_slots_inv _ _ _ Hd _ _ Hr _ _ Hsl) as [_ _ _ _ _ _ Hdel].
      rewrite Hc in Hdel. rewrite delivered_app, Hdel, E. simpl.
      by rewrite app_nil_r.
  - intros Hr i sl Hsl. left.
    destruct (Reach_failed _ _ _ _ _ Hd Hr) as [[-> ->]|[-> ->]]; simpl in Hsl;
      apply lookup_replicate in Hsl as [-> _]; done.
Qed.

(** X10.  A collector takes one payload from its [chdown] at most, the first
    that came in.  Every other payload the transport delivers for the
    recipient leaves its callback parked in [chdown <- msg.Payload()], and
    once the collector is past its [select] nothing is ever taken from
    [chdown] again: the callbacks parked there stay parked whatever happens
    next. *)
Theorem Send_takes_one_payload_per_recipient tr s i sl :
  Reach tr s → slots s !! i = Some sl →
  (delivered i tr = chdown sl ∨ ∃ b, delivered i tr = b :: chdown sl) ∧
  (col sl ≠ ColIdle → col sl ≠ ColSelect →
     ∀ tr' s', run s tr' = Some s' →
       ∃ sl', slots s' !! i = Some sl' ∧ chdown sl' = chdown sl ++ delivered i tr').
Proof.
  intros Hr Hsl. split.
  - by apply (one_payload _ _ Hr).
  - intros H1 H2 tr' s' Hrun.
    destruct (run_late _ _ _ _ _ (Reach_wf _ _ _ _ Hr) Hrun Hsl (conj H1 H2))
      as (sl' & ? & _ & ?).
    by exists sl'.
Qed.

Lemma step_closed s l s' i sl' :
  step s l = Some s' → slots s' !! i = Some sl' → chdown_closed sl' = true →
  (∃ sl, slots s !! i = Some sl ∧ chdown_closed sl = true) ∨
  (l = LRecord i ∧ ∃ e m, main s = MSendErr i e ∧ recipients !! i = Some (Mqtt m)).
Proof.
  intros H Hsl Hc. destruct l; step_inv H; simpl in *.
  all: try slot_cases; simplify_eq/=; eauto.
  right. split; [done|].
  match goal with H : recipients !! _ = Some ?r |- _ => destruct r; simplify_eq/= end.
  eauto.
Qed.

Lemma mqtt_never_skipped tr s i m :
  Reach tr s → recipients !! i = Some (Mqtt m) → count skips i tr = 0.
Proof.
  intros Hr Hm. apply count_none. intros l Hl Hc.
  destruct l; simpl in Hc; simplify_eq.
  destruct (Reach_elem_of _ _ _ _ _ Hr Hl) as (? & ? & s1 & s2 & _ & _ & Hs & _).
  apply skip_foreign in Hs as [descr Hs]. congruence.
Qed.

Section Closed.

Variable d : bytes.
Hypothesis Hd : MarshalBinary p = inl d.

(** [chdown] is closed for the recipients whose subscription failed, and for
    no other. *)
Lemma closed_after_failure tr s :
  Reach tr s → ∀ i sl, slots s !! i = Some sl → chdown_closed sl = true →
  0 < count subscribes_ko i tr.
Proof.
  revert tr s.
  apply (Reach_induction p recipients
           (λ tr s, ∀ i sl, slots s !! i = Some sl → chdown_closed sl = true →
                            0 < count subscribes_ko i tr)).
  { intros i sl [-> _]%lookup_replicate. done. }
  intros tr s l s' Hr IH Hs i sl' Hsl' Hc'. rewrite count_app.
  destruct (step_closed _ _ _ _ _ Hs Hsl' Hc')
    as [(sl & Hsl & Hc)|(-> & e & m & Hm & Hrm)].
  - pose proof (IH _ _ Hsl Hc). lia.
  - pose proof (Reach_wf _ _ _ _ Hr) as [Hlen _ Hse Hfr _ _].
    destruct (slot_of _ _ _ Hd _ _ _ Hr (Hse _ _ Hm))
      as (sl & Hsl & [Hsub _ _ _ _ Hvis _]).
    destruct (Hfr _ _ Hsl) as [_ Hcol]; [rewrite Hm; simpl; lia|].
    rewrite Hm in Hvis. simpl in Hvis. rewrite bool_decide_eq_true_2 in Hvis by lia.
    rewrite Hcol in Hsub. simpl in Hsub.
    rewrite (mqtt_never_skipped _ _ _ _ Hr Hrm), count_subscribes in Hvis. lia.
Qed.

End Closed.

(** X11.  [chdown] is closed only when the subscription has failed, and then
    no collector is started for it: no collector ever receives from a closed
    [chdown], so that [ok] is true every time line 161 is reached. *)
Theorem Send_never_receives_from_closed_chdown tr s i :
  Reach tr s →
  (LRecvClosed i ∉ tr) ∧
  (∀ sl, slots s !! i = Some sl → chdown_closed sl = true →
     pub sl = PubIdle ∧ col sl = ColIdle ∧ ∃ e, LSubscribe i (Some e) ∈ tr).
Proof.
  intros Hr.
  assert (∀ tr s sl, Reach tr s → slots s !! i = Some sl → chdown_closed sl = true →
            pub sl = PubIdle ∧ col sl = ColIdle ∧ ∃ e, LSubscribe i (Some e) ∈ tr) as Hcl.
  { clear tr s Hr. intros tr s sl Hr Hsl Hc.
    destruct (MarshalBinary p) as [d|err] eqn:Hd.
    - pose proof (closed_after_failure d Hd _ _ Hr _ _ Hsl Hc) as Hko.
      destruct (skipped_idle _ _ _ Hd _ _ _ _ Hr Hsl) as [Hp Hcol]; [lia|].
      split_and!; [done..|].
      destruct (count_pos_elem_of _ _ _ Hko) as (l & Hl & Hk).
      destruct l as [| | ? [e|]| | | | | | | | | | | | |]; simpl in Hk; simplify_eq.
      by exists e.
    - destruct (Reach_failed _ _ _ _ _ Hd Hr) as [[-> ->]|[-> ->]]; simpl in Hsl;
        apply lookup_replicate in Hsl as [-> _]; done. }
  split; [|by eauto].
  intros Hin.
  destruct (Reach_elem_of _ _ _ _ _ Hr Hin) as (pre & ? & s1 & s2 & _ & Hr1 & Hs & _).
  unfold_step_in Hs.
  destruct (slots s1 !! i) as [sl|] eqn:Hsl; [|done].
  destruct (col sl) eqn:Hcol; try done.
  destruct (chdown sl); [|done].
  destruct (chdown_closed sl) eqn:Hc; [|done].
  destruct (Hcl _ _ _ Hr1 Hsl Hc) as (_ & ? & _). congruence.
Qed.

Lemma subscribes_ok_index l j : subscribes_ok l = Some j → index l = Some j.
Proof. destruct l; simpl; try congruence. case_match; congruence. Qed.

(** The ways out of the wait of lines 159-165. *)
Lemma step_past_select s l s' i sl' :
  step s l = Some s' → slots s' !! i = Some sl' → past_select (col sl') = 1 →
  (∃ sl, slots s !! i = Some sl ∧ past_select (col sl) = 1) ∨
  l = LTimeout i ∨ l = LForward i ∨ l = LRecvClosed i.
Proof.
  intros H Hsl Hp. destruct l; step_inv H; simpl in *.
  all: try slot_cases; simplify_eq/=; eauto 6.
  all: left; eexists; split; [done|];
       match goal with H : col _ = _ |- _ => by rewrite H end.
Qed.

Lemma wait_over tr s :
  Reach tr s → ∀ i sl, slots s !! i = Some sl → past_select (col sl) = 1 →
  LTimeout i ∈ tr ∨ LForward i ∈ tr ∨ LRecvClosed i ∈ tr.
Proof.
  revert tr s.
  apply (Reach_induction p recipients
           (λ tr s, ∀ i sl, slots s !! i = Some sl → past_select (col sl) = 1 →
                            LTimeout i ∈ tr ∨ LForward i ∈ tr ∨ LRecvClosed i ∈ tr)).
  { intros i sl [-> _]%lookup_replicate. done. }
  intros tr s l s' Hr IH Hs i sl' Hsl' Hp.
  destruct (step_past_select _ _ _ _ _ Hs Hsl' Hp)
    as [(sl & Hsl & Hp0)|[-> | [-> | ->]]].
  - destruct (IH _ _ Hsl Hp0) as [?|[?|?]]; [left|right; left|right; right];
      apply elem_of_app; by left.
  - left. apply elem_of_app. right. by apply list_elem_of_singleton.
  - right; left. apply elem_of_app. right. by apply list_elem_of_singleton.
  - right; right. apply elem_of_app. right. by apply list_elem_of_singleton.
Qed.

Section Unsubscribing.

Variable d : bytes.
Hypothesis Hd : MarshalBinary p = inl d.

Lemma recv_closed_never tr s i : Reach tr s → LRecvClosed i ∉ tr.
Proof.
  intros Hr Hin.
  destruct (Reach_elem_of _ _ _ _ _ Hr Hin) as (pre & ? & s1 & s2 & _ & Hr1 & Hs & _).
  unfold_step_in Hs.
  destruct (slots s1 !! i) as [sl|] eqn:Hsl; [|done].
  destruct (col sl) eqn:Hcol; try done.
  destruct (chdown sl); [|done].
  destruct (chdown_closed sl) eqn:Hc; [|done].
  pose proof (closed_after_failure d Hd _ _ Hr1 _ _ Hsl Hc) as Hko.
  destruct (skipped_idle _ _ _ Hd _ _ _ _ Hr1 Hsl) as [_ ?]; [lia|congruence].
Qed.

(** A recipient that was passed over is not unsubscribed. *)
Lemma skipped_never_unsubscribed tr s i :
  Reach tr s → 0 < count skips i tr + count subscribes_ko i tr →
  count unsubscribes i tr = 0.
Proof.
  intros Hr Hsk.
  pose proof (skipped_in_range _ _ _ _ _ Hr Hsk) as Hi.
  destruct (slot_of _ _ _ Hd _ _ _ Hr Hi) as (sl & Hsl & [_ _ Hun _ _ _ _]).
  destruct (skipped_idle _ _ _ Hd _ _ _ _ Hr Hsl Hsk) as [_ Hc].
  by rewrite Hun, Hc.
Qed.

(** The deferred [a.Unsubscribe] goes through whatever its token says. *)
Lemma unsubscribe_any_token tr s i sl t :
  Reach tr s → slots s !! i = Some sl → col sl = ColUnsubscribe →
  ∃ s', step s (LUnsubscribe i t) = Some s' ∧
        count unsubscribes i (tr ++ [LUnsubscribe i t]) = 1.
Proof.
  intros Hr Hsl Hc.
  pose proof (Reach_slots_inv _ _ _ Hd _ _ Hr _ _ Hsl) as [_ _ Hun _ _ _ _].
  rewrite Hc in Hun. simpl in Hun.
  eexists. split.
  - unfold_step. by rewrite Hsl, Hc.
  - rewrite count_app, Hun. simpl. by rewrite bool_decide_eq_true_2.
Qed.

(** When nothing of [Send] can move, the collectors that exist are done. *)
Lemma halted_counts tr s i :
  Reach tr s → (∀ l, own l = true → step s l = None) →
  count unsubscribes i tr = count subscribes_ok i tr.
Proof.
  intros Hr Hstuck.
  destruct (decide (i < nb)) as [Hi|Hi].
  - destruct (slot_of _ _ _ Hd _ _ _ Hr Hi) as (sl & Hsl & [Hsub _ Hun _ _ _ _]).
    rewrite Hsub, Hun.
    destruct (col sl) eqn:Hc; try done.
    all: destruct (slot_enabled d Hd _ _ _ _ Hr Hsl) as (l & s' & Hs & Ho & _);
      [right; rewrite Hc; done|rewrite (Hstuck l Ho) in Hs; done].
  - rewrite (count_out_of_range p recipients unsubscribes tr s i),
      (count_out_of_range p recipients subscribes_ok tr s i);
      auto using unsubscribes_index, subscribes_ok_index with lia.
Qed.

End Unsubscribing.

(** C6, as the code has it.  [a.Unsubscribe] for a recipient is the deferred
    call of its collector and of nothing else.  It is the call for the
    recipient's [TopicDown()]; it comes after the subscription went through
    and after the wait is over, by the timeout or by a payload that was
    forwarded; it goes through whatever its token and the publication give;
    it is made once and never twice, so that a collector that is done has
    made it, a collector that exists can always get to it, and every
    recipient has had it by the time [wg.Wait()] has returned.  A recipient
    that was passed over, for want of the [MqttRecipient] capability or
    because its subscription failed, has no collector and is never
    unsubscribed.  When [Send] has come to a halt, each recipient has been
    unsubscribed as often as it was subscribed with success. *)
Theorem Send_unsubscribes_once tr s i :
  Reach tr s →
  count unsubscribes i tr ≤ 1 ∧
  (∀ sl, slots s !! i = Some sl → col sl = ColDone → count unsubscribes i tr = 1) ∧
  (∀ sl, slots s !! i = Some sl → col sl ≠ ColIdle →
     ∃ tr' s', run s tr' = Some s' ∧ count unsubscribes i (tr ++ tr') = 1) ∧
  (LJoin ∈ tr → i < nb → count unsubscribes i tr = 1) ∧
  (∀ pre t post, tr = pre ++ LUnsubscribe i t :: post →
     (∃ m, recipients !! i = Some (Mqtt m) ∧
           ∀ s0, call recipients s0 (LUnsubscribe i t) = Some (Unsubscribe (TopicDown m))) ∧
     LSubscribe i None ∈ pre ∧
     (LTimeout i ∈ pre ∨ LForward i ∈ pre)) ∧
  (∀ sl, slots s !! i = Some sl → col sl = ColUnsubscribe →
     ∀ t, ∃ s', step s (LUnsubscribe i t) = Some s' ∧
                count unsubscribes i (tr ++ [LUnsubscribe i t]) = 1) ∧
  count unsubscribes i tr ≤ count subscribes_ok i tr ∧
  ((LSkip i ∈ tr ∨ ∃ e, LSubscribe i (Some e) ∈ tr) →
     ∀ tr' s', run s tr' = Some s' → count unsubscribes i (tr ++ tr') = 0) ∧
  ((∀ l, own l = true → step s l = None) →
     count unsubscribes i tr = count subscribes_ok i tr).
Proof.
  intros Hr.
  destruct (unsubscribes_once_parts _ _ _ _ i Hr) as (H1 & H2 & H3 & H4).
  split; [done|]. split; [done|]. split; [done|]. split; [done|].
  destruct (MarshalBinary p) as [d|err] eqn:Hd.
  - split_and!.
    + intros pre t post ->.
      destruct (Reach_split _ _ _ _ _ _ Hr) as (s1 & s2 & Hr1 & Hs & _).
      assert (∃ sl, slots s1 !! i = Some sl ∧ col sl = ColUnsubscribe) as (sl & Hsl & Hc).
      { unfold_step_in Hs. destruct (slots s1 !! i) as [sl|]; [|done].
        exists sl. split; [done|]. by destruct (col sl). }
      destruct (collector_subscribed d Hd _ _ _ _ Hr1 Hsl) as [Hin [m Hm]]; [congruence|].
      split_and!; [|done|].
      * exists m. split; [done|]. intros s0. simpl. by rewrite Hm.
      * destruct (wait_over _ _ Hr1 _ _ Hsl) as [?|[?|Hcl]]; [by rewrite Hc|auto..|].
        by apply (recv_closed_never d Hd _ _ i Hr1) in Hcl.
    + intros sl Hsl Hc t. by apply (unsubscribe_any_token d Hd _ _ _ sl).
    + destruct (decide (i < nb)) as [Hi|Hi].
      * destruct (slot_of _ _ _ Hd _ _ _ Hr Hi) as (sl & _ & [Hsub _ Hun _ _ _ _]).
        rewrite Hsub, Hun. destruct (col sl); simpl; lia.
      * rewrite (count_out_of_range p recipients unsubscribes tr s i); [lia| |done|lia].
        apply unsubscribes_index.
    + intros Hsk tr' s' Hrun.
      apply (skipped_never_unsubscribed d Hd _ s'); [by eapply Reach_app|].
      rewrite !count_app.
      destruct Hsk as [Hin|[e Hin]].
      * pose proof (count_elem_of skips i tr _ Hin eq_refl). lia.
      * pose proof (count_elem_of subscribes_ko i tr _ Hin eq_refl). lia.
    + by apply (halted_counts d Hd).
  - assert (tr = [] ∨ tr = [LMarshal]) as Htr.
    { destruct (Reach_failed _ _ _ _ _ Hd Hr) as [[-> _]|[-> _]]; auto. }
    assert (∀ j sl, slots s !! j = Some sl → col sl = ColIdle) as Hidle.
    { intros j sl Hsl.
      destruct (Reach_failed _ _ _ _ _ Hd Hr) as [[_ ->]|[_ ->]]; simpl in Hsl;
        apply lookup_replicate in Hsl as [-> _]; done. }
    split_and!.
    + intros pre t post E. destruct Htr as [->| ->].
      * by destruct pre.
      * destruct pre as [|? [|]]; simplify_eq.
    + intros sl Hsl Hc. rewrite (Hidle _ _ Hsl) in Hc. done.
    + destruct Htr as [->| ->]; simpl; lia.
    + intros [Hin|[e Hin]]; exfalso; destruct Htr as [->| ->];
        try (by apply elem_of_nil in Hin);
        apply list_elem_of_singleton in Hin; done.
    + intros _. destruct Htr as [->| ->]; done.
Qed.

End SendMore.

(** * The model at work *)

Section Examples.

Import Demo.

Example R1_answers_returns_ack1 :
  main (final good_packet [R1; R2] (R1_answers ++ [LJoin; LReturn])) =
  MReturned (Some ack1, None).
Proof. vm_compute. reflexivity. Qed.

Example both_answer_returns_WrongBehavior :
  main (final good_packet [R1; R2] (both_answer ++ [LJoin; LReturn])) =
  MReturned (None, Some (errors_New ErrWrongBehavior
                           "Received too many positive answers")).
Proof. vm_compute. reflexivity. Qed.

Example publish_fails_returns_FailedOperation :
  main (final good_packet [R1; R2] (publish_fails ++ [LJoin; LReturn])) =
  MReturned (None, Some (errors_New ErrFailedOperation
     "No positive response from recipients but got unexpected answers")).
Proof. vm_compute. reflexivity. Qed.

Example nobody_answers_returns_WrongBehavior :
  main (final good_packet [R1] (nobody_answers ++ [LJoin; LReturn])) =
  MReturned (None, Some (errors_New ErrWrongBehavior
                           "No recipient gave a positive answer")).
Proof. vm_compute. reflexivity. Qed.

Example bad_packet_returns_InvalidStructure :
  main (final bad_packet [R1; R2] [LMarshal]) =
  MReturned (None, Some (errors_New ErrInvalidStructure "invalid MType")).
Proof. vm_compute. reflexivity. Qed.

(** The subscription for [R1] fails, [R2] answers and both its goroutines
    finish: the counter stays at 2 and [wg.Wait()] does not return. *)
Example subscribe_fails_waits :
  let s := final good_packet [R1; R2] subscribe_fails in
  run good_packet [R1; R2] (init [R1; R2]) subscribe_fails = Some s ∧
  main s = MWait ∧ wg s = 2%Z ∧ chresp s = [ack2] ∧ length (cherr s) = 1 ∧
  step good_packet [R1; R2] s LJoin = None.
Proof. vm_compute. by split_and!. Qed.

(** C2, the failing input: [Send] of a packet that marshals, to one recipient
    that is no [MqttRecipient].  The caller records the error, reaches
    [wg.Wait()] with the counter at 2 and no goroutine to bring it down: no
    step is possible, [Send] is blocked for good. *)
Lemma Send_to_stranger_blocks :
  ∃ s, run good_packet [stranger] (init [stranger]) stranger_skipped = Some s ∧
       main s = MWait ∧ wg s = 2%Z ∧ length (cherr s) = 1 ∧ chresp s = [] ∧
       (∀ l, step good_packet [stranger] s l = None).
Proof.
  exists (final good_packet [stranger] stranger_skipped).
  split_and!; try (vm_compute; reflexivity).
  intros l.
  destruct l as [|i|i t|i| | |i t|i|i|i b|i|i|i|i|i t|i];
    try (vm_compute; reflexivity).
  all: destruct i as [|i]; vm_compute; reflexivity.
Qed.

(** C3, the claim as stated fails: the error recorded for a recipient without
    the capability and the error returned for a packet that does not marshal
    are of one and the same kind. *)
Lemma stranger_error_kind_is_the_marshalling_one :
  ∃ e e' s s',
    run good_packet [stranger] (init [stranger]) [LMarshal; LSkip 0] = Some s ∧
    main s = MSendErr 0 e ∧
    run bad_packet [stranger] (init [stranger]) [LMarshal] = Some s' ∧
    main s' = MReturned (None, Some e') ∧
    kind e = kind e'.
Proof.
  exists (errors_New ErrInvalidStructure
            "Unable to interpret recipient as mqttRecipient"),
    (errors_New ErrInvalidStructure "invalid MType"),
    (final good_packet [stranger] [LMarshal; LSkip 0]),
    (final bad_packet [stranger] [LMarshal]).
  split_and!; vm_compute; reflexivity.
Qed.

End Examples.

(** * The claims about the funnel *)

Section FunnelFacts.

Import Funnel.

Lemma events_snoc w es e : events w (es ++ [e]) = w' ← events w es; event w' e.
Proof.
  revert w. induction es as [|e' es IH]; intros w; simpl.
  - by destruct (event w e).
  - destruct (event w e'); simpl; auto.
Qed.

Lemma arrivals_snoc es e :
  arrivals (es ++ [e]) = arrivals es ++ match e with Enqueue r => [r] | _ => [] end.
Proof.
  induction es as [|e' es IH]; simpl.
  - by destruct e.
  - destruct e'; simpl; by rewrite IH.
Qed.

Lemma funnel_inv_start : funnel_inv [] start.
Proof. split; try done. by exists []. Qed.

Lemma funnel_inv_event es w e w' :
  funnel_inv es w → event w e = Some w' → funnel_inv (es ++ [e]) w'.
Proof.
  intros [Hcap Hbuf Hrq Hpk (taken & Harr & Hans) Hrc Hrb Hrr] He.
  destruct w as [[pk rg] inx ans]. destruct pk as [c b q r].
  simpl in *. subst c b. destruct e as [x|x| |]; simpl in He.
  - unfold enqueue, send in He. simpl in He.
    destruct inx; subst r; simpl in He; simplify_eq.
    + rewrite Hpk in * by done. split; simpl; try done.
      exists (taken ++ [x]). by rewrite arrivals_snoc, Harr, fmap_app, !app_nil_r.
    + split; simpl; try done.
      exists taken. by rewrite arrivals_snoc, Harr, app_assoc.
  - simplify_eq. unfold enqueue_registration, send. simpl.
    rewrite Hrr, Hrb, Hrc. simpl. split; simpl; try done.
    exists taken. by rewrite arrivals_snoc, app_nil_r.
  - destruct inx; [done|]. subst r. unfold Next, recv in He. simpl in He.
    destruct q as [|x q]; simplify_eq; split; simpl; try done.
    + exists taken. by rewrite arrivals_snoc, app_nil_r.
    + exists (taken ++ [x]). rewrite arrivals_snoc, Harr, fmap_app, app_nil_r.
      split; [by rewrite <-app_assoc|done].
  - destruct inx; [done|]. simplify_eq. split; simpl; try done.
    exists taken. by rewrite arrivals_snoc, app_nil_r.
Qed.

Lemma funnel_inv_events es w : events start es = Some w → funnel_inv es w.
Proof.
  revert w. induction es as [|e es IH] using rev_ind; intros w Hw.
  - simpl in Hw. simplify_eq. apply funnel_inv_start.
  - rewrite events_snoc in Hw.
    destruct (events start es) as [w0|]; simpl in Hw; [|done].
    eauto using funnel_inv_event.
Qed.

(** C8. [Next] blocks the consumer while no request waits on [a.packets];
    as soon as one does it returns the packet of that request, an
    [mqttAckNacker] holding the response channel of that same request, and a
    nil error.  What [Next] has returned so far answers the first requests
    that arrived, one by one and in the order of their arrival. *)
Theorem Next_fifo es w :
  events start es = Some w →
  answers w =
    (λ r, (Packet r, {| AckChresp := Chresp r |}, None))
      <$> take (length (answers w)) (arrivals es) ∧
  (in_next w = false →
     match drop (length (answers w)) (arrivals es) with
     | [] => (Next (adapter w)).2 = None
     | r :: _ => (Next (adapter w)).2 = Some (Packet r, {| AckChresp := Chresp r |}, None)
     end) ∧
  (in_next w = true →
     drop (length (answers w)) (arrivals es) = [] ∧
     event w CallNext = None ∧
     ∀ r, ∃ w', event w (Enqueue r) = Some w' ∧ in_next w' = false ∧
                answers w' = answers w ++ [(Packet r, {| AckChresp := Chresp r |}, None)]).
Proof.
  intros Hw.
  destruct (funnel_inv_events _ _ Hw)
    as [Hcap Hbuf Hrq Hpk (taken & Harr & Hans) _ _ _].
  assert (length (answers w) = length taken) as Hlen
    by (by rewrite Hans, length_fmap).
  rewrite Hlen, Harr, take_app_length, drop_app_length. split_and!.
  - done.
  - intros Hin. unfold Next, recv. rewrite Hbuf.
    by destruct (sendq (packets (adapter w))).
  - intros Hin. split_and!.
    + by apply Hpk.
    + simpl. by rewrite Hin.
    + intros r. simpl. unfold enqueue, send. rewrite Hrq, Hin. simpl. eauto.
Qed.

(** C4, as the code has it.  [NewAdapter] makes both channels with
    [make(chan ...)], so they have no buffer at all.  A handler's send of a
    request goes through at once only when the consumer is parked in [Next];
    otherwise the handler blocks until [Next] takes the request.  A send of a
    registration always blocks: [NextRegistration] receives nothing. *)
Theorem funnel_channels_unbuffered es w :
  events start es = Some w →
  cap (packets (adapter w)) = 0 ∧ cap (registrations (adapter w)) = 0 ∧
  (∀ r, match enqueue (adapter w) r with
        | Handed _ => in_next w = true
        | Buffered _ => False
        | SendParked c => in_next w = false ∧ last (sendq c) = Some r
        end) ∧
  (∀ r, ∃ c, enqueue_registration (adapter w) r = SendParked c ∧
             last (sendq c) = Some r).
Proof.
  intros Hw.
  destruct (funnel_inv_events _ _ Hw) as [Hcap Hbuf Hrq Hpk _ Hrc Hrb Hrr].
  split_and!; [done..| |].
  - intros r. unfold enqueue, send. rewrite Hrq, Hbuf, Hcap.
    destruct (in_next w); simpl; [done|]. split; [done|]. apply last_snoc.
  - intros r. unfold enqueue_registration, send. rewrite Hrr, Hrb, Hrc. simpl.
    eexists. split; [done|]. apply last_snoc.
Qed.

(** C9. [NextRegistration] returns at once, whatever the state of the
    adapter: a nil registration, a nil acknowledger and a nil error.  It takes
    nothing from [a.registrations] and leaves the adapter as it was. *)
Theorem NextRegistration_returns_nil a :
  NextRegistration a = (a, Some (None, None, None)).
Proof. reflexivity. Qed.

End FunnelFacts.

(** * More about the funnel *)

Section FunnelMore.

Import Funnel.

Lemma registrations_sent_snoc es e :
  registrations_sent (es ++ [e]) =
  registrations_sent es ++ match e with EnqueueRegistration r => [r] | _ => [] end.
Proof.
  induction es as [|e' es IH]; simpl.
  - by destruct e.
  - destruct e'; simpl; by rewrite IH.
Qed.

Lemma registrations_parked es w :
  events start es = Some w →
  sendq (registrations (adapter w)) = registrations_sent es.
Proof.
  revert w. induction es as [|e es IH] using rev_ind; intros w Hw.
  - simpl in Hw. by simplify_eq.
  - rewrite events_snoc in Hw.
    destruct (events start es) as [w0|] eqn:E; simpl in Hw; [|done].
    pose proof (funnel_inv_events _ _ E) as [_ _ _ _ _ Hrc Hrb Hrr].
    rewrite registrations_sent_snoc, <- (IH w0 eq_refl).
    destruct e as [x|x| |]; simpl in Hw.
    + destruct (enqueue (adapter w0) x); simplify_eq; simpl; by rewrite app_nil_r.
    + simplify_eq. simpl. unfold enqueue_registration, send.
      rewrite Hrr, Hrb, Hrc. done.
    + destruct (in_next w0); [done|]. unfold Next in Hw.
      destruct (recv (packets (adapter w0))); simplify_eq; simpl; by rewrite app_nil_r.
    + destruct (in_next w0); [done|]. simplify_eq. simpl. by rewrite app_nil_r.
Qed.

(** X12.  Nothing ever receives from [a.registrations]: [NextRegistration]
    returns at once without looking at it, so every registration a handler
    has sent is still there, its sender parked in [chreg <- req].  On
    [a.packets] the senders that are parked are those of the requests [Next]
    has not returned yet, in the order of their arrival. *)
Theorem funnel_keeps_what_is_not_taken es w :
  events start es = Some w →
  sendq (registrations (adapter w)) = registrations_sent es ∧
  buf (registrations (adapter w)) = [] ∧
  sendq (packets (adapter w)) = drop (length (answers w)) (arrivals es).
Proof.
  intros Hw. split; [by apply registrations_parked|].
  destruct (funnel_inv_events _ _ Hw) as [_ _ _ _ (taken & Harr & Hans) _ Hrb _].
  split; [done|].
  rewrite Harr, Hans, length_fmap. by rewrite drop_app_length.
Qed.

End FunnelMore.

(** * The theorems at work on the calls of [Demo] *)

Section Witnesses.

Import Demo.

Lemma all_done_lookup (l : list Slot) i sl :
  all_done l = true → l !! i = Some sl → pub sl = PubDone ∧ col sl = ColDone.
Proof.
  revert i. induction l as [|a l IH]; intros i Hl Hi; [done|].
  simpl in Hl. apply andb_prop in Hl as [Ha Hl].
  destruct i as [|i]; simpl in Hi.
  - simplify_eq. by destruct (pub sl), (col sl).
  - eauto.
Defined.

Lemma Send_aggregates_witness :
  Reach good_packet [R1; R2] R1_answers (final good_packet [R1; R2] R1_answers) ∧
  main (final good_packet [R1; R2] R1_answers) = MWait ∧
  ∃ s1 s2 r,
    step good_packet [R1; R2] (final good_packet [R1; R2] R1_answers) LJoin = Some s1 ∧
    step good_packet [R1; R2] s1 LReturn = Some s2 ∧ main s2 = MReturned r.
Proof.
  assert (Reach good_packet [R1; R2] R1_answers
            (final good_packet [R1; R2] R1_answers)) as Hr by (vm_compute; reflexivity).
  split; [exact Hr|]. split; [vm_compute; reflexivity|].
  destruct (Send_aggregates good_packet [R1; R2] R1_answers _ Hr)
    as (s1 & s2 & r & H1 & H2 & H3 & _).
  - vm_compute; reflexivity.
  - intros i sl.
    apply (all_done_lookup (slots (final good_packet [R1; R2] R1_answers)) i sl).
    vm_compute. reflexivity.
  - exact (ex_intro _ s1 (ex_intro _ s2 (ex_intro _ r (conj H1 (conj H2 H3))))).
Defined.

Lemma Send_buffers_suffice_witness :
  Reach good_packet [R1; R2] both_answer (final good_packet [R1; R2] both_answer) ∧
  length (cherr (final good_packet [R1; R2] both_answer)) ≤ 2 ∧
  length (chresp (final good_packet [R1; R2] both_answer)) ≤ 2 ∧
  count forwards 0 both_answer ≤ 1 ∧ count records 1 both_answer ≤ 1.
Proof.
  assert (Reach good_packet [R1; R2] both_answer
            (final good_packet [R1; R2] both_answer)) as Hr by (vm_compute; reflexivity).
  split; [exact Hr|].
  destruct (Send_buffers_suffice good_packet [R1; R2] both_answer _ Hr)
    as (Hc & He & Hp & _).
  split; [exact He|]. split; [exact Hp|].
  split; [exact (proj1 (Hc 0))|exact (proj2 (Hc 1))].
Defined.

Lemma Send_marshals_once_witness :
  Reach bad_packet [R1; R2] [LMarshal] (final bad_packet [R1; R2] [LMarshal]) ∧
  marshals [LMarshal] ≤ 1 ∧
  (∀ l, step bad_packet [R1; R2] (final bad_packet [R1; R2] [LMarshal]) l = None).
Proof.
  assert (Reach bad_packet [R1; R2] [LMarshal]
            (final bad_packet [R1; R2] [LMarshal])) as Hr by (vm_compute; reflexivity).
  split; [exact Hr|].
  destruct (Send_marshals_once bad_packet [R1; R2] [LMarshal] _ Hr)
    as (Hm & _ & Hf).
  split; [exact Hm|].
  destruct (Hf "invalid MType" eq_refl) as (_ & Hend & _).
  destruct Hend as (_ & _ & Hstuck); [discriminate|exact Hstuck].
Defined.

Lemma Send_subscribes_before_publishing_witness :
  Reach good_packet [R1; R2] subscribe_fails
    (final good_packet [R1; R2] subscribe_fails) ∧
  LSubscribe 1 None ∈ [LMarshal; LSubscribe 0 (Some "not authorized"); LRecord 0;
                       LSubscribe 1 None] ∧
  count publishes 0 subscribe_fails = 0.
Proof.
  assert (Reach good_packet [R1; R2] subscribe_fails
            (final good_packet [R1; R2] subscribe_fails)) as Hr by (vm_compute; reflexivity).
  split; [exact Hr|].
  destruct (Send_subscribes_before_publishing good_packet [R1; R2]
              subscribe_fails _ 1 Hr) as [Hp _].
  destruct (Send_subscribes_before_publishing good_packet [R1; R2]
              subscribe_fails _ 0 Hr) as [_ Hs].
  split.
  - exact (proj1 (Hp [LMarshal; LSubscribe 0 (Some "not authorized"); LRecord 0;
                      LSubscribe 1 None] None
                     [LDeliver 1 ack2; LRecv 1; LForward 1; LUnsubscribe 1 None;
                      LPubDone 1; LColDone 1] eq_refl)).
  - exact (proj1 (Hs [LMarshal] "not authorized"
                     [LRecord 0; LSubscribe 1 None; LPublish 1 None;
                      LDeliver 1 ack2; LRecv 1; LForward 1; LUnsubscribe 1 None;
                      LPubDone 1; LColDone 1] eq_refl)).
Defined.

Lemma Send_unsubscribes_once_witness :
  Reach good_packet [R1; R2] (R1_answers ++ [LJoin; LReturn])
    (final good_packet [R1; R2] (R1_answers ++ [LJoin; LReturn])) ∧
  count unsubscribes 1 (R1_answers ++ [LJoin; LReturn]) = 1 ∧
  (∃ m, [R1; R2] !! 1 = Some (Mqtt m) ∧
        ∀ s0, call [R1; R2] s0 (LUnsubscribe 1 None) =
              Some (Unsubscribe (TopicDown m))) ∧
  LSubscribe 1 None ∈ take 12 R1_answers ∧
  (LTimeout 1 ∈ take 12 R1_answers ∨ LForward 1 ∈ take 12 R1_answers).
Proof.
  assert (Reach good_packet [R1; R2] (R1_answers ++ [LJoin; LReturn])
            (final good_packet [R1; R2] (R1_answers ++ [LJoin; LReturn])))
    as Hr by (vm_compute; reflexivity).
  split; [exact Hr|].
  destruct (Send_unsubscribes_once good_packet [R1; R2] _ _ 1 Hr)
    as (_ & _ & _ & Hj & Hcall & _).
  split.
  - apply Hj.
    + apply elem_of_app. right. left.
    + unfold nb. simpl. lia.
  - apply (Hcall (take 12 R1_answers) None (drop 13 R1_answers ++ [LJoin; LReturn])).
    vm_compute. reflexivity.
Defined.

Lemma Send_skips_foreign_recipient_witness :
  Reach good_packet [stranger; R2] [LMarshal; LSkip 0]
    (final good_packet [stranger; R2] [LMarshal; LSkip 0]) ∧
  [stranger; R2] !! 0 = Some (Foreign "http recipient") ∧
  count subscribes 0 [LMarshal; LSkip 0] = 0 ∧
  ∃ s', step good_packet [stranger; R2]
          (final good_packet [stranger; R2] [LMarshal; LSkip 0]) (LRecord 0) = Some s' ∧
        length (cherr s') = 1.
Proof.
  assert (Reach good_packet [stranger; R2] [LMarshal; LSkip 0]
            (final good_packet [stranger; R2] [LMarshal; LSkip 0]))
    as Hr by (vm_compute; reflexivity).
  split; [exact Hr|]. split; [reflexivity|].
  destruct (Send_skips_foreign_recipient good_packet [stranger; R2] _ _ 0
              "http recipient" Hr eq_refl) as (_ & Hs & _ & _ & _ & Hrec & _).
  split; [exact Hs|].
  assert (main (final good_packet [stranger; R2] [LMarshal; LSkip 0]) =
          MSendErr 0 (errors_New ErrInvalidStructure
                        "Unable to interpret recipient as mqttRecipient"))
    as Hm by (vm_compute; reflexivity).
  destruct (Hrec _ Hm) as (_ & s' & Hstep & Hcherr & _).
  exists s'. split; [exact Hstep|]. rewrite Hcherr. vm_compute. reflexivity.
Defined.

Lemma Next_fifo_witness :
  Funnel.events Funnel.start busy_funnel = Some (funnel_after busy_funnel) ∧
  Funnel.answers (funnel_after busy_funnel) =
    (λ r, (Funnel.Packet r, {| Funnel.AckChresp := Funnel.Chresp r |}, None))
      <$> [req1; req2; req3].
Proof.
  assert (Funnel.events Funnel.start busy_funnel = Some (funnel_after busy_funnel))
    as Hw by (vm_compute; reflexivity).
  split; [exact Hw|].
  etrans; [exact (proj1 (Next_fifo busy_funnel _ Hw))|].
  vm_compute. reflexivity.
Defined.

Lemma funnel_channels_unbuffered_witness :
  Funnel.events Funnel.start [Funnel.CallNextRegistration; Funnel.Enqueue req1] =
    Some (funnel_after [Funnel.CallNextRegistration; Funnel.Enqueue req1]) ∧
  Funnel.cap (Funnel.packets (Funnel.adapter
    (funnel_after [Funnel.CallNextRegistration; Funnel.Enqueue req1]))) = 0 ∧
  Funnel.cap (Funnel.registrations (Funnel.adapter
    (funnel_after [Funnel.CallNextRegistration; Funnel.Enqueue req1]))) = 0.
Proof.
  assert (Funnel.events Funnel.start [Funnel.CallNextRegistration; Funnel.Enqueue req1] =
            Some (funnel_after [Funnel.CallNextRegistration; Funnel.Enqueue req1]))
    as Hw by (vm_compute; reflexivity).
  split; [exact Hw|].
  destruct (funnel_channels_unbuffered _ _ Hw) as (Hp & Hr & _).
  split; [exact Hp|exact Hr].
Defined.

(** C4, the claim as stated fails: on the adapter [NewAdapter] has just made,
    with no consumer in [Next], a handler that sends a request is parked on the
    channel; so is one that sends a registration. *)
Lemma enqueue_blocks_without_consumer :
  Funnel.cap (Funnel.packets Funnel.NewAdapter) = 0 ∧
  Funnel.enqueue Funnel.NewAdapter req1 =
    Funnel.SendParked {| Funnel.cap := 0; Funnel.buf := [];
                         Funnel.sendq := [req1]; Funnel.recvq := 0 |} ∧
  (∃ c, Funnel.enqueue_registration Funnel.NewAdapter
          {| Funnel.Registration := "dev1"; Funnel.RegChresp := 4 |} =
        Funnel.SendParked c).
Proof. split_and!; [vm_compute; reflexivity..|]. eexists. vm_compute. reflexivity. Qed.

(** C6, the claim as stated fails: a recipient whose subscription fails has
    no wait and is never unsubscribed.  The subscription for [R1] fails, [R2]
    is served; when nothing of [Send] can move any more, [R1] has not been
    unsubscribed, and whatever the transport still delivers it never is. *)
Lemma failed_subscription_is_never_unsubscribed :
  ∃ s,
    Reach good_packet [R1; R2] subscribe_fails s ∧
    LSubscribe 0 (Some "not authorized") ∈ subscribe_fails ∧
    (∀ l, own l = true → step good_packet [R1; R2] s l = None) ∧
    count unsubscribes 0 subscribe_fails = 0 ∧
    count unsubscribes 1 subscribe_fails = 1 ∧
    (∀ tr' s', run good_packet [R1; R2] s tr' = Some s' →
               count unsubscribes 0 (subscribe_fails ++ tr') = 0).
Proof.
  exists (final good_packet [R1; R2] subscribe_fails).
  assert (Reach good_packet [R1; R2] subscribe_fails
            (final good_packet [R1; R2] subscribe_fails)) as Hr
    by (vm_compute; reflexivity).
  split; [exact Hr|]. split.
  { unfold subscribe_fails. apply elem_of_cons. right. apply elem_of_cons. left.
    reflexivity. }
  split.
  { intros l Ho.
    destruct l as [|i|i t|i| | |i t|i|i|i b|i|i|i|i|i t|i];
      try (vm_compute; reflexivity); try discriminate Ho.
    all: destruct i as [|[|i]]; vm_compute; reflexivity. }
  split; [vm_compute; reflexivity|]. split; [vm_compute; reflexivity|].
  intros tr' s' Hrun.
  apply (skipped_never_unsubscribed good_packet [R1; R2] payload eq_refl
           (subscribe_fails ++ tr') s' 0).
  - exact (Reach_app _ _ _ _ _ _ Hr Hrun).
  - rewrite !count_app.
    assert (count subscribes_ko 0 subscribe_fails = 1) as E by (vm_compute; reflexivity).
    rewrite E. lia.
Qed.

End Witnesses.

(** * The further theorems at work on the calls of [Demo] *)

Section MoreWitnesses.

Import Demo.

Lemma Send_takes_boundedly_many_steps_witness :
  Reach good_packet [R1; R2] R1_answers (final good_packet [R1; R2] R1_answers) ∧
  own_steps R1_answers + steps_left (nb [R1; R2]) (final good_packet [R1; R2] R1_answers)
  ≤ 9 * nb [R1; R2] + 3.
Proof.
  assert (Reach good_packet [R1; R2] R1_answers
            (final good_packet [R1; R2] R1_answers)) as Hr by (vm_compute; reflexivity).
  split; [exact Hr|].
  exact (proj1 (Send_takes_boundedly_many_steps good_packet [R1; R2] R1_answers _ Hr)).
Defined.

Lemma Send_halts_returned_or_after_skip_witness :
  Reach good_packet [stranger] stranger_skipped
    (final good_packet [stranger] stranger_skipped) ∧
  main (final good_packet [stranger] stranger_skipped) = MWait ∧
  ∃ i, i < nb [stranger] ∧
       (LSkip i ∈ stranger_skipped ∨ ∃ e, LSubscribe i (Some e) ∈ stranger_skipped).
Proof.
  assert (Reach good_packet [stranger] stranger_skipped
            (final good_packet [stranger] stranger_skipped)) as Hr
    by (vm_compute; reflexivity).
  split; [exact Hr|].
  destruct (Send_halts_returned_or_after_skip good_packet [stranger] stranger_skipped _ Hr)
    as [[[r Hm] _]|H].
  - intros l _.
    destruct l as [|i|i t|i| | |i t|i|i|i b|i|i|i|i|i t|i];
      try (vm_compute; reflexivity).
    all: destruct i as [|i]; vm_compute; reflexivity.
  - exfalso.
    assert (main (final good_packet [stranger] stranger_skipped) = MWait) as E
      by (vm_compute; reflexivity).
    rewrite E in Hm. discriminate.
  - exact H.
Defined.

Lemma Send_can_return_witness :
  Reach good_packet [R1] [LMarshal; LSubscribe 0 None]
    (final good_packet [R1] [LMarshal; LSubscribe 0 None]) ∧
  ∃ tr' s' r,
    run good_packet [R1] (final good_packet [R1] [LMarshal; LSubscribe 0 None]) tr'
      = Some s' ∧
    main s' = MReturned r ∧
    length tr' ≤ steps_left (nb [R1]) (final good_packet [R1] [LMarshal; LSubscribe 0 None]).
Proof.
  assert (Reach good_packet [R1] [LMarshal; LSubscribe 0 None]
            (final good_packet [R1] [LMarshal; LSubscribe 0 None])) as Hr
    by (vm_compute; reflexivity).
  split; [exact Hr|].
  apply (Send_can_return good_packet [R1] [LMarshal; LSubscribe 0 None] _ Hr).
  - intros r Hin. apply list_elem_of_singleton in Hin. subst r. eexists. reflexivity.
  - intros i e Hin.
    apply elem_of_cons in Hin as [Hin|Hin]; [discriminate|].
    apply list_elem_of_singleton in Hin. discriminate.
Defined.

Lemma Send_publishes_marshalled_packet_witness :
  Reach good_packet [R1] [LMarshal; LSubscribe 0 None]
    (final good_packet [R1] [LMarshal; LSubscribe 0 None]) ∧
  ∃ m d, [R1] !! 0 = Some (Mqtt m) ∧ MarshalBinary good_packet = inl d ∧
         call [R1] (final good_packet [R1] [LMarshal; LSubscribe 0 None])
           (LPublish 0 None) = Some (Publish (TopicUp m) d).
Proof.
  assert (Reach good_packet [R1] [LMarshal; LSubscribe 0 None]
            (final good_packet [R1] [LMarshal; LSubscribe 0 None])) as Hr
    by (vm_compute; reflexivity).
  split; [exact Hr|].
  apply (Send_publishes_marshalled_packet good_packet [R1] [LMarshal; LSubscribe 0 None]
           _ 0 (@None string)
           (final good_packet [R1] [LMarshal; LSubscribe 0 None; LPublish 0 None]) Hr).
  vm_compute. reflexivity.
Defined.

Lemma Send_counter_never_negative_witness :
  Reach good_packet [R1; R2] publish_fails (final good_packet [R1; R2] publish_fails) ∧
  (0 ≤ wg (final good_packet [R1; R2] publish_fails) ≤ 2 * Z.of_nat (nb [R1; R2]))%Z.
Proof.
  assert (Reach good_packet [R1; R2] publish_fails
            (final good_packet [R1; R2] publish_fails)) as Hr by (vm_compute; reflexivity).
  split; [exact Hr|].
  exact (proj1 (Send_counter_never_negative good_packet [R1; R2] publish_fails _ Hr)).
Defined.

Lemma Send_returns_the_one_answer_witness :
  Reach good_packet [R1; R2] (R1_answers ++ [LJoin; LReturn])
    (final good_packet [R1; R2] (R1_answers ++ [LJoin; LReturn])) ∧
  main (final good_packet [R1; R2] (R1_answers ++ [LJoin; LReturn])) =
    MReturned (Some ack1, None) ∧
  ∃ i m, [R1; R2] !! i = Some (Mqtt m) ∧
         head (delivered i (R1_answers ++ [LJoin; LReturn])) = Some ack1 ∧
         LForward i ∈ R1_answers ++ [LJoin; LReturn] ∧
         ∀ j, j ≠ i → LForward j ∉ R1_answers ++ [LJoin; LReturn].
Proof.
  assert (Reach good_packet [R1; R2] (R1_answers ++ [LJoin; LReturn])
            (final good_packet [R1; R2] (R1_answers ++ [LJoin; LReturn]))) as Hr
    by (vm_compute; reflexivity).
  assert (main (final good_packet [R1; R2] (R1_answers ++ [LJoin; LReturn])) =
            MReturned (Some ack1, None)) as Hm by (vm_compute; reflexivity).
  split; [exact Hr|]. split; [exact Hm|].
  exact (proj2 (Send_returns_the_one_answer good_packet [R1; R2] _ _ ack1 None Hr Hm)).
Defined.

Lemma Send_returns_payload_or_error_witness :
  Reach good_packet [R1; R2] (publish_fails ++ [LJoin; LReturn])
    (final good_packet [R1; R2] (publish_fails ++ [LJoin; LReturn])) ∧
  main (final good_packet [R1; R2] (publish_fails ++ [LJoin; LReturn])) =
    MReturned (None, Some (errors_New ErrFailedOperation
      "No positive response from recipients but got unexpected answers")) ∧
  total forwards (publish_fails ++ [LJoin; LReturn]) = 0 ∧
  cherr (final good_packet [R1; R2] (publish_fails ++ [LJoin; LReturn])) ≠ [].
Proof.
  assert (Reach good_packet [R1; R2] (publish_fails ++ [LJoin; LReturn])
            (final good_packet [R1; R2] (publish_fails ++ [LJoin; LReturn])))
    as Hr by (vm_compute; reflexivity).
  assert (main (final good_packet [R1; R2] (publish_fails ++ [LJoin; LReturn])) =
            MReturned (None, Some (errors_New ErrFailedOperation
              "No positive response from recipients but got unexpected answers")))
    as Hm by (vm_compute; reflexivity).
  split; [exact Hr|]. split; [exact Hm|].
  destruct (Send_returns_payload_or_error good_packet [R1; R2] _ _ _ Hr Hm)
    as [[b Hb]|(e & He & _ & _ & Hc)].
  - discriminate Hb.
  - injection He as <-.
    destruct (Hc payload eq_refl) as [[_ E]|[(Ht & Hne & _)|(_ & _ & E)]].
    + discriminate E.
    + exact (conj Ht Hne).
    + discriminate E.
Defined.

Lemma Send_visits_recipients_in_order_witness :
  Reach good_packet [R1; R2] subscribe_fails
    (final good_packet [R1; R2] subscribe_fails) ∧
  omap visits subscribe_fails =
    seq 0 (taken_up (nb [R1; R2]) (main (final good_packet [R1; R2] subscribe_fails))).
Proof.
  assert (Reach good_packet [R1; R2] subscribe_fails
            (final good_packet [R1; R2] subscribe_fails)) as Hr
    by (vm_compute; reflexivity).
  split; [exact Hr|].
  exact (Send_visits_recipients_in_order good_packet [R1; R2] payload subscribe_fails _
           eq_refl Hr).
Defined.

Lemma Send_unsubscribes_what_it_subscribed_witness :
  Reach good_packet [R1; R2] subscribe_fails
    (final good_packet [R1; R2] subscribe_fails) ∧
  count unsubscribes 1 subscribe_fails ≤ count subscribes_ok 1 subscribe_fails ∧
  count unsubscribes 0 subscribe_fails = 0.
Proof.
  assert (Reach good_packet [R1; R2] subscribe_fails
            (final good_packet [R1; R2] subscribe_fails)) as Hr
    by (vm_compute; reflexivity).
  split; [exact Hr|].
  split.
  - exact (proj1 (Send_unsubscribes_what_it_subscribed good_packet [R1; R2]
                    subscribe_fails _ 1 Hr)).
  - apply (proj2 (proj2 (Send_unsubscribes_what_it_subscribed good_packet [R1; R2]
                           subscribe_fails _ 0 Hr)) "not authorized").
    unfold subscribe_fails. apply elem_of_cons. right. apply elem_of_cons. left.
    reflexivity.
Defined.

Lemma Send_takes_one_payload_per_recipient_witness :
  Reach good_packet [R1; R2] R1_answers (final good_packet [R1; R2] R1_answers) ∧
  slots (final good_packet [R1; R2] R1_answers) !! 0 =
    Some {| pub := PubDone; col := ColDone; chdown := [ack2]; chdown_closed := false |} ∧
  (delivered 0 R1_answers = [ack2] ∨ ∃ b, delivered 0 R1_answers = b :: [ack2]).
Proof.
  assert (Reach good_packet [R1; R2] R1_answers
            (final good_packet [R1; R2] R1_answers)) as Hr by (vm_compute; reflexivity).
  assert (slots (final good_packet [R1; R2] R1_answers) !! 0 =
            Some {| pub := PubDone; col := ColDone; chdown := [ack2];
                    chdown_closed := false |}) as Hsl by (vm_compute; reflexivity).
  split; [exact Hr|]. split; [exact Hsl|].
  exact (proj1 (Send_takes_one_payload_per_recipient good_packet [R1; R2] R1_answers
                  _ 0 _ Hr Hsl)).
Defined.

Lemma Send_never_receives_from_closed_chdown_witness :
  Reach good_packet [R1; R2] subscribe_fails
    (final good_packet [R1; R2] subscribe_fails) ∧
  (LRecvClosed 0 ∉ subscribe_fails).
Proof.
  assert (Reach good_packet [R1; R2] subscribe_fails
            (final good_packet [R1; R2] subscribe_fails)) as Hr
    by (vm_compute; reflexivity).
  split; [exact Hr|].
  exact (proj1 (Send_never_receives_from_closed_chdown good_packet [R1; R2]
                  subscribe_fails _ 0 Hr)).
Defined.

Lemma funnel_keeps_what_is_not_taken_witness :
  Funnel.events Funnel.start busy_funnel = Some (funnel_after busy_funnel) ∧
  Funnel.sendq (Funnel.registrations (Funnel.adapter (funnel_after busy_funnel))) =
    Funnel.registrations_sent busy_funnel.
Proof.
  assert (Funnel.events Funnel.start busy_funnel = Some (funnel_after busy_funnel)) as Hw
    by (vm_compute; reflexivity).
  split; [exact Hw|].
  exact (proj1 (funnel_keeps_what_is_not_taken busy_funnel _ Hw)).
Defined.

End MoreWitnesses.
